(** * Verification of the YouTube transcript pipeline scripts

    Shallow embedding of the four scripts
      - [extract_youtube_urls.py]
      - [extract_channel_videos.py]
      - [fetch_transcripts_ytdlp.py]
      - [filter_fitness_videos.py]
    together with the parts of Python's [str], [re] and [json] they use.

    Conventions.
    - A Python [str] is a list of characters; a character is a code point
      in the range U+0000..U+00FF, carried by [ascii].
    - A Python call either returns or raises: [outcome].
    - Everything outside the process (the external tool, the network) is a
      parameter of the functions that reach it. *)

From Stdlib Require Import Ascii String DecimalString.
From Stdlib Require Import List Arith PeanoNat ZArith Bool Lia.
From Stdlib Require Import Permutation Sorted.
Import ListNotations.

(* ================================================================== *)
(** ** Python strings *)
(* ================================================================== *)

Module Py.

Definition str := list ascii.

(** String literals. *)
Definition py (s : string) : str := list_ascii_of_string s.

Definition code (c : ascii) : nat := nat_of_ascii c.

Definition between (lo hi : nat) (c : ascii) : bool :=
  (lo <=? code c) && (code c <=? hi).

Definition code_is (n : nat) (c : ascii) : bool := code c =? n.

(** [str.isspace] on one character (the set [str.strip] removes). *)
Definition isspace (c : ascii) : bool :=
  between 9 13 c || between 28 32 c || code_is 133 c || code_is 160 c.

(** Characters that [str.lower] changes. *)
Definition isupper (c : ascii) : bool :=
  between 65 90 c || (between 192 222 c && negb (code_is 215 c)).

Definition lower_char (c : ascii) : ascii :=
  if isupper c then ascii_of_nat (code c + 32) else c.

(** [s.lower()] *)
Definition lower (s : str) : str := map lower_char s.

Fixpoint lstrip_by (p : ascii -> bool) (s : str) : str :=
  match s with
  | c :: s' => if p c then lstrip_by p s' else s
  | [] => []
  end.

Definition rstrip_by (p : ascii -> bool) (s : str) : str :=
  rev (lstrip_by p (rev s)).

(** [s.strip()] *)
Definition strip (s : str) : str := rstrip_by isspace (lstrip_by isspace s).

(** [s.rstrip(c)] for a one-character argument. *)
Definition rstrip_char (c : ascii) (s : str) : str :=
  rstrip_by (Ascii.eqb c) s.

(** [s.startswith(p)] *)
Fixpoint startswith (p s : str) : bool :=
  match p, s with
  | [], _ => true
  | a :: p', b :: s' => Ascii.eqb a b && startswith p' s'
  | _ :: _, [] => false
  end.

(** [s.find(sub)]: index of the first occurrence, [None] for -1. *)
Fixpoint find (sub s : str) : option nat :=
  if startswith sub s then Some 0
  else match s with
       | [] => None
       | _ :: s' => option_map S (find sub s')
       end.

(** [sub in s] *)
Definition contains (sub s : str) : bool :=
  match find sub s with Some _ => true | None => false end.

(** [c in s] for a one-character [c]. *)
Definition has_char (c : ascii) (s : str) : bool := existsb (Ascii.eqb c) s.

(** [s.split(c)] for a one-character separator: never empty. *)
Fixpoint split (c : ascii) (s : str) : list str :=
  match s with
  | [] => [[]]
  | x :: s' =>
      if Ascii.eqb x c then [] :: split c s'
      else match split c s' with
           | w :: ws => (x :: w) :: ws
           | [] => [[x]]
           end
  end.

(** [s.split(c, 1)] on a string that contains [c]: the parts before and
    after the first [c]. *)
Fixpoint split1 (c : ascii) (s : str) : str * str :=
  match s with
  | [] => ([], [])
  | x :: s' =>
      if Ascii.eqb x c then ([], s')
      else let (a, b) := split1 c s' in (x :: a, b)
  end.

(** [sep.join(l)] *)
Fixpoint join (sep : str) (l : list str) : str :=
  match l with
  | [] => []
  | [w] => w
  | w :: ws => w ++ sep ++ join sep ws
  end.

(** [s.replace(old, new)] for a non-empty [old]: occurrences are
    replaced left to right without overlap.  [skip] counts the
    characters of the occurrence being replaced that remain to pass. *)
Fixpoint replace_from (old new : str) (skip : nat) (s : str) : str :=
  match s with
  | [] => []
  | c :: s' =>
      match skip with
      | S k => replace_from old new k s'
      | O =>
          if startswith old s
          then new ++ replace_from old new (length old - 1) s'
          else c :: replace_from old new 0 s'
      end
  end.

Definition replace (old new s : str) : str := replace_from old new 0 s.

(** [c * n] *)
Definition times (c : ascii) (n : nat) : str := repeat c n.

Definition str_eqb (a b : str) : bool :=
  if list_eq_dec ascii_dec a b then true else false.

(** [x in l] for a list or a set of strings. *)
Definition mem (x : str) (l : list str) : bool := existsb (str_eqb x) l.

End Py.

(* ================================================================== *)
(** ** The fragment of [re] the scripts use *)
(* ================================================================== *)

Module Re.
Import Py.

(** [\w] for [str] patterns: alphanumeric or underscore. *)
Definition is_word (c : ascii) : bool :=
  between 48 57 c || between 65 90 c || between 97 122 c || code_is 95 c
  || code_is 170 c || between 178 179 c || code_is 181 c || between 185 186 c
  || between 188 190 c || between 192 214 c || between 216 246 c
  || between 248 255 c.

Inductive regex : Type :=
| Eps                              (* empty pattern *)
| Chr (c : ascii)                  (* a literal character *)
| ChrI (c : ascii)                 (* a literal under re.IGNORECASE *)
| Cls (p : ascii -> bool)          (* one character of a class *)
| ClsPlus (p : ascii -> bool)      (* [...]+, greedy *)
| Opt (r : regex)                  (* r?, greedy *)
| WordB                            (* \b *)
| Cat (r1 r2 : regex).

(** A literal string, as [re.escape] makes of it. *)
Definition lit (s : str) : regex := fold_right (fun c r => Cat (Chr c) r) Eps s.

(** The same compiled with [re.IGNORECASE]. *)
Definition lit_i (s : str) : regex := fold_right (fun c r => Cat (ChrI c) r) Eps s.

Definition word_opt (o : option ascii) : bool :=
  match o with Some c => is_word c | None => false end.

(** The character before the current position after [w] was consumed. *)
Definition prev_after (prev : option ascii) (w : str) : option ascii :=
  match rev w with c :: _ => Some c | [] => prev end.

(** All ways of matching [p+] at the head of [s], longest first. *)
Fixpoint plus_runs (p : ascii -> bool) (s : str) : list (str * str) :=
  match s with
  | c :: s' =>
      if p c
      then map (fun '(w, t) => (c :: w, t)) (plus_runs p s') ++ [([c], s')]
      else []
  | [] => []
  end.

(** Backtracking matcher: every way of matching [r] at the current
    position, in the order the engine tries them, as pairs of the text
    consumed and the text left.  [prev] is the character before the
    position, if any. *)
Fixpoint run (r : regex) (prev : option ascii) (s : str) : list (str * str) :=
  match r with
  | Eps => [([], s)]
  | Chr c =>
      match s with
      | x :: s' => if Ascii.eqb x c then [([x], s')] else []
      | [] => []
      end
  | ChrI c =>
      match s with
      | x :: s' => if Ascii.eqb (lower_char x) (lower_char c) then [([x], s')] else []
      | [] => []
      end
  | Cls p =>
      match s with
      | x :: s' => if p x then [([x], s')] else []
      | [] => []
      end
  | ClsPlus p => plus_runs p s
  | Opt r' => run r' prev s ++ [([], s)]
  | WordB =>
      if xorb (word_opt prev) (word_opt (hd_error s)) then [([], s)] else []
  | Cat r1 r2 =>
      flat_map
        (fun '(w1, s1) =>
           map (fun '(w2, s2) => (w1 ++ w2, s2)) (run r2 (prev_after prev w1) s1))
        (run r1 prev s)
  end.

(** The match at the current position, if there is one. *)
Definition match_here (r : regex) (prev : option ascii) (s : str) : option str :=
  match run r prev s with
  | (w, _) :: _ => Some w
  | [] => None
  end.

(** [re.finditer]: scan left to right; after a match resume where it
    ended.  Every pattern of the scripts consumes at least one
    character, so a match never ends where it starts. *)
Fixpoint finditer_from (r : regex) (prev : option ascii) (pos skip : nat)
         (s : str) : list (nat * str) :=
  match s with
  | [] => []
  | c :: s' =>
      match skip with
      | S k => finditer_from r (Some c) (S pos) k s'
      | O =>
          match match_here r prev s with
          | Some w => (pos, w) :: finditer_from r (Some c) (S pos) (length w - 1) s'
          | None => finditer_from r (Some c) (S pos) 0 s'
          end
      end
  end.

Definition finditer (r : regex) (s : str) : list (nat * str) :=
  finditer_from r None 0 0 s.

(** [re.findall(r, s)] for a pattern without capture group. *)
Definition findall (r : regex) (s : str) : list str := map snd (finditer r s).

(** [re.search(r, s)]: the leftmost match. *)
Definition search (r : regex) (s : str) : option str := hd_error (findall r s).

End Re.

(* ================================================================== *)
(** ** filter_fitness_videos.py *)
(* ================================================================== *)

Module Scorer.
Import Py Re.

(** The members of the set [FITNESS_KEYWORDS], as the source lists them. *)
Definition FITNESS_KEYWORDS : list str := map py
  [ "workout"; "exercise"; "training"; "fitness"; "gym";
    "muscle"; "chest"; "back"; "legs"; "arms"; "shoulders";
    "biceps"; "triceps"; "abs"; "core"; "glutes"; "hamstrings";
    "quadriceps"; "calves"; "lats"; "delts"; "pecs";
    "squat"; "deadlift"; "bench press"; "push up"; "pull up";
    "curl"; "press"; "row"; "lunge"; "plank"; "crunch";
    "burpee"; "jump"; "sprint"; "cardio"; "hiit";
    "dumbbell"; "barbell"; "kettlebell"; "weight"; "resistance";
    "cable"; "machine"; "bodyweight"; "calisthenics";
    "reps"; "sets"; "repetitions"; "strength"; "hypertrophy";
    "endurance"; "conditioning"; "mobility"; "flexibility";
    "stretching"; "recovery"; "rest day"; "progressive overload";
    "muscle gain"; "fat loss"; "cutting"; "bulking"; "lean";
    "body composition"; "physique"; "shredded"; "jacked";
    "powerlifting"; "bodybuilding"; "crossfit"; "olympic lifting";
    "martial arts"; "boxing"; "mma"; "wrestling"; "jiu jitsu";
    "yoga"; "pilates"; "running"; "cycling"; "swimming";
    "nutrition"; "protein"; "calories"; "diet"; "supplements";
    "performance"; "athletic"; "athlete"; "sports" ]%string.

(** [r'\b' + re.escape(keyword) + r'\b'] compiled with [re.IGNORECASE]. *)
Definition keyword_pattern (keyword : str) : regex :=
  Cat WordB (Cat (lit_i keyword) WordB).

(** [len(re.findall(pattern, text, re.IGNORECASE))] *)
Definition keyword_count (keyword text : str) : nat :=
  length (findall (keyword_pattern keyword) text).


(** [matches[keyword] = count] on a dict kept in insertion order. *)
Fixpoint dict_set (k : str) (v : nat) (d : list (str * nat)) : list (str * nat) :=
  match d with
  | [] => [(k, v)]
  | (k', v') :: d' =>
      if str_eqb k' k then (k', v) :: d' else (k', v') :: dict_set k v d'
  end.

(** One turn of the loop of [calculate_fitness_score]. *)
Definition score_step (text : str) (acc : nat * list (str * nat)) (keyword : str)
  : nat * list (str * nat) :=
  let '(total_score, matches) := acc in
  let count := keyword_count keyword text in
  if 0 <? count
  then (total_score + count, dict_set keyword count matches)
  else (total_score, matches).

(** [calculate_fitness_score(text)].  A Python set is iterated in an
    order the language does not fix (for strings it follows their
    hashes, which are salted per process); [order] is the order in
    which this run meets the members of [FITNESS_KEYWORDS]. *)
Definition calculate_fitness_score (order : list str) (text : str)
  : nat * list (str * nat) :=
  fold_left (score_step text) order (0, []).

(** A directory entry: its name and what reading it gives ([None] when
    [open] or [read] raises). *)
Record file : Type := { name : str; data : option str }.

Record transcript : Type :=
  { t_video_id : str; t_url : str; t_text : str; t_filename : str }.

(** The loop over [lines[:10]] of [load_transcript]. *)
Definition header_step (acc : str * str) (line : str) : str * str :=
  let '(video_id, url) := acc in
  if startswith (py "Video ID:") line
  then (strip (replace (py "Video ID:") [] line), url)
  else if startswith (py "URL:") line
  then (video_id, strip (replace (py "URL:") [] line))
  else (video_id, url).

(** [load_transcript(filepath)]; [None] is Python's [None]. *)
Definition load_transcript (filepath : file) : option transcript :=
  match data filepath with
  | None => None
  | Some content =>
      let lines := split "010"%char content in
      let '(video_id, url) := fold_left header_step (firstn 10 lines) ([], []) in
      let transcript_text :=
        match find (times "="%char 80) content with
        | Some separator_idx => lower (skipn separator_idx content)
        | None => lower content
        end in
      Some {| t_video_id := video_id; t_url := url;
              t_text := transcript_text; t_filename := name filepath |}
  end.

(** [sorted(l, key=key, reverse=True)]: descending and stable, that is,
    elements with equal keys keep the order they had in [l]. *)
Section SortDesc.
Variable A : Type.
Variable key : A -> nat.

Fixpoint insert_desc (x : A) (l : list A) : list A :=
  match l with
  | [] => [x]
  | y :: l' => if key x <? key y then y :: insert_desc x l' else x :: l
  end.

Definition sorted_desc (l : list A) : list A := fold_right insert_desc [] l.
End SortDesc.
Arguments insert_desc {A} key x l.
Arguments sorted_desc {A} key l.

Record entry : Type :=
  { video_id : str; url : str; filename : str;
    fitness_score : nat; top_keywords : list (str * nat) }.

(** The body of the loop of [find_fitness_videos] for one file: the
    entry appended to [fitness_videos], if any. *)
Definition score_file (order : list str) (min_score : nat) (filepath : file)
  : option entry :=
  match load_transcript filepath with
  | None => None
  | Some transcript =>
      let '(score, matches) := calculate_fitness_score order (t_text transcript) in
      if min_score <=? score
      then Some {| video_id := t_video_id transcript;
                   url := t_url transcript;
                   filename := t_filename transcript;
                   fitness_score := score;
                   top_keywords := firstn 10 (sorted_desc (@snd str nat) matches) |}
      else None
  end.

Definition endswith (suffix s : str) : bool :=
  startswith (rev suffix) (rev s).

(** [transcripts_path.glob('*.txt')] on the directory listing. *)
Definition glob_txt (listing : list file) : list file :=
  filter (fun f => endswith (py ".txt") (name f)) listing.

(** [find_fitness_videos(transcripts_dir, min_score)].  The directory is
    [None] when it does not exist, else its listing in the order the
    file system gives it. *)
Definition find_fitness_videos (order : list str) (transcripts_dir : option (list file))
           (min_score : nat) : list entry :=
  match transcripts_dir with
  | None => []
  | Some listing =>
      let transcript_files := glob_txt listing in
      match transcript_files with
      | [] => []
      | _ =>
          let fitness_videos :=
            flat_map (fun f => match score_file order min_score f with
                               | Some e => [e]
                               | None => []
                               end) transcript_files in
          sorted_desc fitness_score fitness_videos
      end
  end.

End Scorer.

(* ================================================================== *)
(** ** Exceptions, JSON values, the world outside *)
(* ================================================================== *)

Module Exc.
Import Py.

(** The exceptions that occur.  [External] stands for one raised by the
    operating system or a library ([json.load] on a malformed body,
    [os.remove] on a file that cannot be removed, a tool that cannot be
    started); all are subclasses of [Exception]. *)
Inductive exn : Type :=
| TimeoutExpired
| ZeroDivisionError
| TypeError
| KeyError
| External (what : str).

Inductive outcome (A : Type) : Type :=
| Returned (a : A)
| Raised (e : exn).
Arguments Returned {A} a.
Arguments Raised {A} e.

Definition bind {A B : Type} (m : outcome A) (k : A -> outcome B) : outcome B :=
  match m with
  | Returned a => k a
  | Raised e => Raised e
  end.

(** The text of an ['error'] field: a literal of the script, or [str(e)]
    of a caught exception. *)
Inductive error_text : Type :=
| Text (s : str)
| StrOf (e : exn).

End Exc.

Declare Scope py_scope.
Delimit Scope py_scope with py_scope.
Notation "x <- m ;; k" := (Exc.bind m (fun x => k))
  (at level 61, m at next level, right associativity) : py_scope.

Module Json.
Import Py Exc.
Local Open Scope py_scope.

(** What [json.load] returns.  An object is the dict built from it, in
    insertion order. *)
#[local] Unset Elimination Schemes.
Inductive json : Type :=
| JNull
| JBool (b : bool)
| JNum (literal : str)
| JStr (s : str)
| JArr (items : list json)
| JObj (members : list (str * json)).
#[local] Set Elimination Schemes.

Fixpoint lookup (k : str) (d : list (str * json)) : option json :=
  match d with
  | [] => None
  | (k', v) :: d' => if str_eqb k' k then Some v else lookup k d'
  end.

Definition is_the_str (k : str) (v : json) : bool :=
  match v with JStr s => str_eqb s k | _ => false end.

(** [k in v] for a string [k]. *)
Definition py_in (k : str) (v : json) : outcome bool :=
  match v with
  | JObj d => Returned (match lookup k d with Some _ => true | None => false end)
  | JArr l => Returned (existsb (is_the_str k) l)
  | JStr s => Returned (contains k s)
  | _ => Raised TypeError
  end.

(** [v[k]] for a string [k]. *)
Definition py_getitem (v : json) (k : str) : outcome json :=
  match v with
  | JObj d => match lookup k d with Some x => Returned x | None => Raised KeyError end
  | _ => Raised TypeError
  end.

(** The elements [for x in v] goes through. *)
Definition py_iter (v : json) : outcome (list json) :=
  match v with
  | JArr l => Returned l
  | JObj d => Returned (map (fun kv => JStr (fst kv)) d)
  | JStr s => Returned (map (fun c => JStr [c]) s)
  | _ => Raised TypeError
  end.

(** A loop [for x in l: acc = body(acc, x)] that stops at the first
    exception. *)
Fixpoint for_each {A B : Type} (body : B -> A -> outcome B) (l : list A) (acc : B)
  : outcome B :=
  match l with
  | [] => Returned acc
  | x :: l' => acc' <- body acc x ;; for_each body l' acc'
  end.

(** [' '.join(texts)]: every element has to be a [str]. *)
Fixpoint strings_of (texts : list json) : outcome (list str) :=
  match texts with
  | [] => Returned []
  | JStr s :: rest => ss <- strings_of rest ;; Returned (s :: ss)
  | _ :: _ => Raised TypeError
  end.

End Json.

Module OS.
Import Py Exc Json.

(** A file under /tmp: what [open] followed by [json.load] gives, and
    whether [os.remove] succeeds on it. *)
Record tmp_file : Type := { body : outcome json; removable : bool }.

Definition fs : Type := str -> option tmp_file.

Definition remove_path (path : str) (files : fs) : fs :=
  fun p => if str_eqb p path then None else files p.

(** The world: the temporary files, and the rest (network, the remote
    service), on which the external tool depends. *)
Record world (X : Type) : Type := { ext : X; files : fs }.
Arguments ext {X} w.
Arguments files {X} w.

(** A finished process, as [subprocess.run(..., capture_output=True,
    text=True)] returns it. *)
Record completed : Type := { returncode : Z; stdout : str; stderr : str }.

(** [subprocess.run(cmd, ..., timeout=t)]: runs the command in the
    world; raises [TimeoutExpired] when the wait elapses. *)
Definition subprocess (X : Type) : Type :=
  list str -> nat -> world X -> outcome completed * world X.

End OS.

(* ================================================================== *)
(** ** extract_youtube_urls.py *)
(* ================================================================== *)

Module UrlExtractor.
Import Py Re.

Definition word_or_dash (c : ascii) : bool := is_word c || Ascii.eqb c "-".

(** [https?://(?:www\.)?youtube\.com/watch\?v=[\w-]+] *)
Definition watch_pattern : regex :=
  Cat (lit (py "http")) (Cat (Opt (Chr "s")) (Cat (lit (py "://"))
    (Cat (Opt (lit (py "www.")))
    (Cat (lit (py "youtube.com/watch?v=")) (ClsPlus word_or_dash))))).

(** [https?://(?:www\.)?youtube\.com/shorts/[\w-]+] *)
Definition shorts_pattern : regex :=
  Cat (lit (py "http")) (Cat (Opt (Chr "s")) (Cat (lit (py "://"))
    (Cat (Opt (lit (py "www.")))
    (Cat (lit (py "youtube.com/shorts/")) (ClsPlus word_or_dash))))).

Definition youtube_patterns : list regex := [ watch_pattern; shorts_pattern ].

(** One turn of a loop that removes duplicates: [seen] is the set,
    [unique] the list built so far; [clean] is the cleaning applied to
    each element first. *)
Definition dedup_step (clean : str -> str) (acc : list str * list str) (u : str)
  : list str * list str :=
  let '(seen, unique) := acc in
  let clean_url := clean u in
  if mem clean_url seen then (seen, unique)
  else (clean_url :: seen, unique ++ [clean_url]).

Definition dedup (clean : str -> str) (l : list str) : list str :=
  snd (fold_left (dedup_step clean) l ([], [])).

(** [url.split('&')[0] if '&' in url else url] *)
Definition clean_video_url (url : str) : str :=
  if has_char "&" url then hd [] (split "&" url) else url.

(** The list [video_urls]: the matches of the first pattern, then those
    of the second. *)
Definition video_urls (content : str) : list str :=
  flat_map (fun pattern => findall pattern content) youtube_patterns.

(** [extract_youtube_videos]: the list returned for a file of the given
    content. *)
Definition extract_youtube_videos (content : str) : list str :=
  dedup clean_video_url (video_urls content).

(** What it writes to [output_file]. *)
Definition output_text (unique_urls : list str) : str :=
  flat_map (fun url => url ++ ["010"%char]) unique_urls.

End UrlExtractor.

(* ================================================================== *)
(** ** extract_channel_videos.py *)
(* ================================================================== *)

Module Channels.
Import Py Re Exc OS UrlExtractor.

Definition handle_char (c : ascii) : bool :=
  is_word c || Ascii.eqb c "-" || Ascii.eqb c ".".

(** [https://www\.youtube\.com/@[\w\-\.]+] *)
Definition channel_pattern : regex :=
  Cat (lit (py "https://www.youtube.com/@")) (ClsPlus handle_char).

(** [extract_channel_urls], on the content of the input file. *)
Definition extract_channel_urls (content : str) : list str :=
  dedup (rstrip_char "/") (findall channel_pattern content).

Record video : Type := { video_id : str; title : str; url : str }.

Inductive result : Type :=
| Success (videos : list video)
| Failure (error : error_text).

(** [str(n)] *)
Definition str_of_nat (n : nat) : str :=
  py (NilEmpty.string_of_uint (Nat.to_uint n)).

Definition watch_url (id : str) : str := py "https://www.youtube.com/watch?v=" ++ id.

(** The body of the loop over the lines of stdout. *)
Definition parse_line (line : str) : list video :=
  if has_char "|" line
  then let (video_id, title) := split1 "|" line in
       [ {| video_id := strip video_id;
            title := strip title;
            url := watch_url (strip video_id) |} ]
  else [].

Definition parse_stdout (out : str) : list video :=
  flat_map parse_line (split "010"%char (strip out)).

Definition listing_cmd (channel_url : str) (max_videos : option nat) : list str :=
  [ py "yt-dlp"; py "--flat-playlist"; py "--print"; py "%(id)s|%(title)s";
    py "--no-warnings"; py "--quiet"; channel_url ++ py "/videos" ]
  ++ match max_videos with
     | Some (S n) => [ py "--playlist-end"; str_of_nat (S n) ]
     | _ => []
     end.

Section Enumerator.
Context {X : Type}.
Variable run : subprocess X.

(** The [try] block of [fetch_channel_videos]. *)
Definition fetch_channel_videos_try (channel_url : str) (max_videos : option nat)
           (w : world X) : outcome result * world X :=
  let cmd := listing_cmd channel_url max_videos in
  match run cmd 120 w with
  | (Raised e, w') => (Raised e, w')
  | (Returned res, w') =>
      if negb (Z.eqb (returncode res) 0)
      then (Returned (Failure (Text (stderr res))), w')
      else (Returned (Success (parse_stdout (stdout res))), w')
  end.

(** [fetch_channel_videos]: the [try] block under its two handlers. *)
Definition fetch_channel_videos (channel_url : str) (max_videos : option nat)
           (w : world X) : outcome result * world X :=
  match fetch_channel_videos_try channel_url max_videos w with
  | (Returned r, w') => (Returned r, w')
  | (Raised TimeoutExpired, w') => (Returned (Failure (Text (py "Timeout"))), w')
  | (Raised e, w') => (Returned (Failure (StrOf e)), w')
  end.
End Enumerator.

End Channels.

(* ================================================================== *)
(** ** fetch_transcripts_ytdlp.py *)
(* ================================================================== *)

Module Fetcher.
Import Py Re Exc Json OS.
Local Open Scope py_scope.

Definition not_amp (c : ascii) : bool := negb (Ascii.eqb c "&").
Definition not_amp_qm (c : ascii) : bool :=
  negb (Ascii.eqb c "&") && negb (Ascii.eqb c "?").

(** [youtube\.com/watch\?v=([^&]+)] and [youtube\.com/shorts/([^&?]+)],
    each as the literal before the group and the class of the group. *)
Definition patterns : list (str * (ascii -> bool)) :=
  [ (py "youtube.com/watch?v=", not_amp);
    (py "youtube.com/shorts/", not_amp_qm) ].

(** [re.search(pattern, url)] followed by [match.group(1)]: the group
    is what the match holds after the literal. *)
Definition search_group (pattern : str * (ascii -> bool)) (url : str) : option str :=
  let (prefix, cls) := pattern in
  option_map (skipn (length prefix)) (search (Cat (lit prefix) (ClsPlus cls)) url).

(** [extract_video_id(url)] *)
Fixpoint first_group (ps : list (str * (ascii -> bool))) (url : str) : option str :=
  match ps with
  | [] => None
  | pattern :: ps' =>
      match search_group pattern url with
      | Some g => Some g
      | None => first_group ps' url
      end
  end.

Definition extract_video_id (url : str) : option str := first_group patterns url.

Inductive result : Type :=
| Success (text language method : str)
| Failure (error : error_text).

Definition subtitle_cmd (video_id url : str) : list str :=
  [ py "yt-dlp"; py "--write-auto-sub"; py "--write-sub"; py "--sub-lang"; py "en";
    py "--skip-download"; py "--sub-format"; py "json3";
    py "--output"; py "/tmp/yt_transcript_" ++ video_id;
    py "--quiet"; py "--no-warnings"; url ].

Definition subtitle_files (video_id : str) : list str :=
  [ py "/tmp/yt_transcript_" ++ video_id ++ py ".en.json3";
    py "/tmp/yt_transcript_" ++ video_id ++ py ".en-US.json3";
    py "/tmp/yt_transcript_" ++ video_id ++ py ".en-GB.json3" ].

(** [if 'utf8' in seg: texts.append(seg['utf8'])] *)
Definition seg_step (texts : list json) (seg : json) : outcome (list json) :=
  has <- py_in (py "utf8") seg ;;
  if has : bool
  then (t <- py_getitem seg (py "utf8") ;; Returned (texts ++ [t]))
  else Returned texts.

(** [if 'segs' in event: for seg in event['segs']: ...] *)
Definition event_step (texts : list json) (event : json) : outcome (list json) :=
  has <- py_in (py "segs") event ;;
  if has : bool
  then (segs <- py_getitem event (py "segs") ;;
        l <- py_iter segs ;;
        for_each seg_step l texts)
  else Returned texts.

(** The block under [if 'events' in subtitle_data], up to [full_text]. *)
Definition full_text (subtitle_data : json) : outcome str :=
  events <- py_getitem subtitle_data (py "events") ;;
  l <- py_iter events ;;
  texts <- for_each event_step l [] ;;
  ss <- strings_of texts ;;
  Returned (strip (join (py " ") ss)).

(** The loop [for subtitle_file in subtitle_files]. *)
Fixpoint probe (candidates : list str) (files : fs) : outcome result * fs :=
  match candidates with
  | [] => (Returned (Failure (Text (py "No subtitles found"))), files)
  | subtitle_file :: rest =>
      match files subtitle_file with
      | None => probe rest files
      | Some f =>
          match body f with
          | Raised e => (Raised e, files)
          | Returned subtitle_data =>
              match py_in (py "events") subtitle_data with
              | Raised e => (Raised e, files)
              | Returned false => probe rest files
              | Returned true =>
                  match full_text subtitle_data with
                  | Raised e => (Raised e, files)
                  | Returned text =>
                      if removable f
                      then (Returned (Success text (py "en") (py "yt-dlp")),
                            remove_path subtitle_file files)
                      else (Raised (External (py "os.remove")), files)
                  end
              end
          end
      end
  end.

(** The two [except] clauses of [fetch_transcript_ytdlp], applied to
    what the [try] block did. *)
Definition handlers (o : outcome result) : outcome result :=
  match o with
  | Returned r => Returned r
  | Raised TimeoutExpired => Returned (Failure (Text (py "Timeout")))
  | Raised e => Returned (Failure (StrOf e))
  end.

Record failure_record : Type :=
  { f_url : str; f_video_id : option str; f_error : error_text }.

(** What the script prints. *)
Inductive message : Type :=
| MsgProcessing (total : nat)
| MsgDelay (delay : nat)
| MsgInvalid (i total : nat) (url : str)
| MsgFetching (i total : nat) (video_id : str)
| MsgSaved (chars : nat)
| MsgFailed (error : error_text)
| MsgSummary (total success failed : nat)
| MsgRate (success total : nat)
| MsgSavedTo (output_dir : str)
| MsgFailedLogged (output_dir : str).

(** What the script does to the outside, in order. *)
Inductive event : Type :=
| EvMakedirs (dir : str)
| EvPrint (m : message)
| EvWrite (path content : str)
| EvDumpFailed (path : str) (failed : list failure_record)
| EvSleep (delay : nat).

(** The text written to the transcript file of a video. *)
Definition transcript_file (video_id url language method text : str) : str :=
  py "Video ID: " ++ video_id ++ ["010"%char]
  ++ py "URL: " ++ url ++ ["010"%char]
  ++ py "Language: " ++ language ++ ["010"%char]
  ++ py "Method: " ++ method ++ ["010"%char]
  ++ ["010"%char] ++ times "="%char 80 ++ ["010"%char; "010"%char]
  ++ text.

(** [not video_id] *)
Definition falsy (video_id : option str) : bool :=
  match video_id with
  | None | Some [] => true
  | Some (_ :: _) => false
  end.

Section Runner.
Context {X : Type}.
Variable run : subprocess X.

(** The [try] block of [fetch_transcript_ytdlp]. *)
Definition fetch_transcript_ytdlp_try (video_id url : str) (w : world X)
  : outcome result * world X :=
  match run (subtitle_cmd video_id url) 30 w with
  | (Raised e, w') => (Raised e, w')
  | (Returned _, w') =>
      let (r, files') := probe (subtitle_files video_id) (files w') in
      (r, {| ext := ext w'; files := files' |})
  end.

(** [fetch_transcript_ytdlp]: the [try] block under its handlers. *)
Definition fetch_transcript_ytdlp (video_id url : str) (w : world X)
  : outcome result * world X :=
  let (o, w') := fetch_transcript_ytdlp_try video_id url w in
  (handlers o, w').

(** The variables of [process_videos], the world and what was done. *)
Record state : Type :=
  { st_world : world X;
    success_count : nat;
    failed : list failure_record;
    trace : list event }.

Definition emit (ev : event) (st : state) : state :=
  {| st_world := st_world st; success_count := success_count st;
     failed := failed st; trace := trace st ++ [ev] |}.

Definition failed_append (r : failure_record) (st : state) : state :=
  {| st_world := st_world st; success_count := success_count st;
     failed := failed st ++ [r]; trace := trace st |}.

Definition count_success (st : state) : state :=
  {| st_world := st_world st; success_count := success_count st + 1;
     failed := failed st; trace := trace st |}.

Definition set_world (w : world X) (st : state) : state :=
  {| st_world := w; success_count := success_count st;
     failed := failed st; trace := trace st |}.

Variable output_dir : str.
Variable delay : nat.

(** The body of the loop of [process_videos] for item [i] of [total]. *)
Definition process_item (total i : nat) (url : str) (st : state)
  : outcome unit * state :=
  let video_id := extract_video_id url in
  if falsy video_id
  then (Returned tt,
        failed_append {| f_url := url; f_video_id := None;
                         f_error := Text (py "Invalid URL") |}
          (emit (EvPrint (MsgInvalid i total url)) st))
  else
    let id := match video_id with Some v => v | None => [] end in
    let st := emit (EvPrint (MsgFetching i total id)) st in
    match fetch_transcript_ytdlp id url (st_world st) with
    | (Raised e, w') => (Raised e, set_world w' st)
    | (Returned r, w') =>
        let st := set_world w' st in
        let st :=
          match r with
          | Success text language method =>
              let filename := output_dir ++ py "/" ++ id ++ py ".txt" in
              count_success
                (emit (EvPrint (MsgSaved (length text)))
                   (emit (EvWrite filename
                            (transcript_file id url language method text)) st))
          | Failure error =>
              failed_append {| f_url := url; f_video_id := Some id;
                               f_error := error |}
                (emit (EvPrint (MsgFailed error)) st)
          end in
        (Returned tt, if i <? total then emit (EvSleep delay) st else st)
    end.

(** [for i, url in enumerate(urls, 1)], from item [i] on. *)
Fixpoint loop (total i : nat) (urls : list str) (st : state)
  : outcome unit * state :=
  match urls with
  | [] => (Returned tt, st)
  | url :: rest =>
      match process_item total i url st with
      | (Raised e, st') => (Raised e, st')
      | (Returned _, st') => loop total (S i) rest st'
      end
  end.

(** The part of [process_videos] after the loop. *)
Definition finish (total : nat) (st : state) : outcome unit * state :=
  let st :=
    match failed st with
    | [] => st
    | _ :: _ => emit (EvDumpFailed (output_dir ++ py "/failed.json") (failed st)) st
    end in
  let st := emit (EvPrint (MsgSummary total (success_count st) (length (failed st)))) st in
  match total with
  | 0 => (Raised ZeroDivisionError, st)
  | S _ =>
      let st := emit (EvPrint (MsgRate (success_count st) total)) st in
      let st := emit (EvPrint (MsgSavedTo output_dir)) st in
      (Returned tt,
       match failed st with
       | [] => st
       | _ :: _ => emit (EvPrint (MsgFailedLogged output_dir)) st
       end)
  end.

(** [[line.strip() for line in f if line.strip()]] *)
Definition read_urls (lines : list str) : list str :=
  filter (fun u => negb (str_eqb u [])) (map strip lines).

(** [process_videos(input_file, output_dir, delay)], on the lines of
    the input file.  Writing a file is taken to succeed. *)
Definition process_videos (lines : list str) (w : world X) : outcome unit * state :=
  let urls := read_urls lines in
  let total := length urls in
  let st := {| st_world := w; success_count := 0; failed := [];
               trace := [ EvMakedirs output_dir;
                          EvPrint (MsgProcessing total);
                          EvPrint (MsgDelay delay) ] |} in
  match loop total 1 urls st with
  | (Raised e, st') => (Raised e, st')
  | (Returned _, st') => finish total st'
  end.

Definition is_sleep (ev : event) : bool :=
  match ev with EvSleep _ => true | _ => false end.

Definition sleeps (st : state) : nat := length (filter is_sleep (trace st)).

End Runner.
Arguments state X : clear implicits.

End Fetcher.

(* ================================================================== *)
(** ** Notions used to state the properties *)
(* ================================================================== *)

Module Spec.
Import Py Re Exc Json OS Scorer UrlExtractor.

(** The character just before position [i] of [text], if any. *)
Definition before (text : str) (i : nat) : option ascii :=
  match i with 0 => None | S j => nth_error text j end.

(** [a] and [b] are equal up to letter case. *)
Definition same_ignoring_case (a b : str) : bool := str_eqb (lower a) (lower b).

(** [keyword] stands at position [i] of [text] up to letter case, with
    no word character immediately before it or after it. *)
Definition whole_word_at (keyword text : str) (i : nat) : bool :=
  negb (word_opt (before text i))
  && same_ignoring_case (firstn (length keyword) (skipn i text)) keyword
  && negb (word_opt (nth_error text (i + length keyword))).

(** The positions of [text] at which [keyword] stands as a whole word. *)
Definition occurrences (keyword text : str) : list nat :=
  filter (whole_word_at keyword text) (seq 0 (length text)).

(** A keyword begins and ends with a word character. *)
Definition word_ended (keyword : str) : bool :=
  word_opt (hd_error keyword) && word_opt (hd_error (rev keyword)).

(** The same as [whole_word_at], seen from the position: [prev] is the
    character before it and [s] the text from it on. *)
Definition whole_word_here (keyword : str) (prev : option ascii) (s : str) : bool :=
  negb (word_opt prev)
  && same_ignoring_case (firstn (length keyword) s) keyword
  && negb (word_opt (hd_error (skipn (length keyword) s))).

(** The character [d] places before the end of [prev] followed by the
    first [d] characters of [s]. *)
Definition before_in (prev : option ascii) (s : str) (d : nat) : option ascii :=
  match d with 0 => prev | S j => nth_error s j end.

(** The positions of whole-word occurrences, counted from [pos], in a
    text that continues with [s] after the character [prev]. *)
Fixpoint occs_from (keyword : str) (prev : option ascii) (pos : nat) (s : str)
  : list nat :=
  match s with
  | [] => []
  | c :: s' =>
      (if whole_word_here keyword prev s then [pos] else [])
      ++ occs_from keyword (Some c) (S pos) s'
  end.

(** A whole-word occurrence of [keyword] could begin [d] characters
    into another one. *)
Definition self_overlap_at (keyword : str) (d : nat) : bool :=
  negb (word_opt (nth_error keyword (d - 1)))
  && same_ignoring_case (skipn d keyword) (firstn (length keyword - d) keyword).

Definition no_self_overlap (keyword : str) : bool :=
  forallb (fun d => negb (self_overlap_at keyword d)) (seq 1 (length keyword - 1)).

(** The number of whole-word occurrences in [text] of the keywords of
    the vocabulary, all together. *)
Definition total_matches (text : str) : nat :=
  list_sum (map (fun k => length (occurrences k text)) FITNESS_KEYWORDS).

(** The entries of a list of optional entries. *)
Definition present {A : Type} (o : option A) : list A :=
  match o with Some e => [e] | None => [] end.

(** A transcript file as [process_videos] writes it, whose text has
    "squat" three times and "deadlift" twice. *)
Definition squat_file : file :=
  {| name := py "abc123.txt";
     data := Some (Fetcher.transcript_file (py "abc123")
                     (py "https://www.youtube.com/watch?v=abc123")
                     (py "en") (py "yt-dlp")
                     (py "Squat, then squat again. Deadlift! One more squat and a deadlift.")) |}.

(** The pairs [calculate_fitness_score] puts in [matches], for a run
    that iterates over the keyword set in [order]. *)
Definition matches_of (order : list str) (text : str) : list (str * nat) :=
  flat_map (fun k => if 0 <? keyword_count k text
                     then [(k, keyword_count k text)] else []) order.

(** An entry without the names of its top keywords: identifier, URL,
    file name, score and the counts of the top keywords in order. *)
Definition entry_core (e : entry) : str * str * str * nat * list nat :=
  (video_id e, url e, filename e, fitness_score e, map snd (top_keywords e)).

(** A transcript file in which two keywords tie. *)
Definition tie_file : file :=
  {| name := py "tie456.txt";
     data := Some (Fetcher.transcript_file (py "tie456")
                     (py "https://www.youtube.com/watch?v=tie456")
                     (py "en") (py "yt-dlp")
                     (py "squat squat squat deadlift deadlift deadlift")) |}.

(** *** Subtitle bodies *)

(** The "utf8" text field of a segment, if present. *)
Definition seg_fragment (seg : json) : list str :=
  match seg with
  | JObj d => match lookup (py "utf8") d with Some (JStr s) => [s] | _ => [] end
  | _ => []
  end.

(** The fragments of the "segs" sub-collection of an event, if any. *)
Definition event_fragments (event : json) : list str :=
  match event with
  | JObj d =>
      match lookup (py "segs") d with
      | Some (JArr segs) => flat_map seg_fragment segs
      | _ => []
      end
  | _ => []
  end.

(** Every fragment of every segment of every event, in order. *)
Definition fragments (subtitle_data : json) : list str :=
  match subtitle_data with
  | JObj d =>
      match lookup (py "events") d with
      | Some (JArr events) => flat_map event_fragments events
      | _ => []
      end
  | _ => []
  end.

(** The transcript text as the specification words it: the fragments
    joined by single spaces, surrounding whitespace trimmed. *)
Definition transcript_text (subtitle_data : json) : str :=
  strip (join (py " ") (fragments subtitle_data)).

(** The strings among JSON values. *)
Definition strs_of (l : list json) : list str :=
  flat_map (fun v => match v with JStr s => [s] | _ => [] end) l.

(** What the loops append for a segment, and for an event, when they do
    not raise: the values of the "utf8" members, strings or not. *)
Definition seg_values (seg : json) : list json :=
  match seg with
  | JObj d => match lookup (py "utf8") d with Some v => [v] | None => [] end
  | _ => []
  end.

Definition event_values (event : json) : list json :=
  match event with
  | JObj d =>
      match lookup (py "segs") d with
      | Some (JArr segs) => flat_map seg_values segs
      | _ => []
      end
  | _ => []
  end.

(** A segment: an object whose "utf8" member, if present, is a string. *)
Definition is_seg (seg : json) : bool :=
  match seg with
  | JObj d => match lookup (py "utf8") d with
              | Some (JStr _) | None => true
              | Some _ => false
              end
  | _ => false
  end.

(** An event: an object whose "segs" member, if present, is an array of
    segments. *)
Definition is_event (event : json) : bool :=
  match event with
  | JObj d => match lookup (py "segs") d with
              | Some (JArr segs) => forallb is_seg segs
              | None => true
              | Some _ => false
              end
  | _ => false
  end.

(** A subtitle body with a top-level "events" collection. *)
Definition is_subtitle_body (subtitle_data : json) : bool :=
  match subtitle_data with
  | JObj d => match lookup (py "events") d with
              | Some (JArr events) => forallb is_event events
              | _ => false
              end
  | _ => false
  end.

(** [{"events":[{"segs":[{"utf8":"hello"},{"utf8":"world"}]}]}] *)
Definition hello_world : json :=
  JObj [(py "events",
         JArr [JObj [(py "segs",
                      JArr [JObj [(py "utf8", JStr (py "hello"))];
                            JObj [(py "utf8", JStr (py "world"))]])]])].

(** The candidate has a body with a top-level "events". *)
Definition has_events (f : tmp_file) : bool :=
  match body f with
  | Returned d => match py_in (py "events") d with
                  | Returned true => true
                  | _ => false
                  end
  | Raised _ => false
  end.

(** The candidate is absent, or its body loads and has no "events". *)
Definition passed_over (files : fs) (candidate : str) : bool :=
  match files candidate with
  | None => true
  | Some f => match body f with
              | Returned d => match py_in (py "events") d with
                              | Returned false => true
                              | _ => false
                              end
              | Raised _ => false
              end
  end.

(** The first candidate that exists. *)
Fixpoint first_existing (candidates : list str) (files : fs) : option str :=
  match candidates with
  | [] => None
  | c :: rest => match files c with
                 | Some _ => Some c
                 | None => first_existing rest files
                 end
  end.

(** A tool that returns at once and leaves the world as it is. *)
Definition idle_tool : subprocess unit :=
  fun _ _ w => (Returned {| returncode := 0%Z; stdout := []; stderr := [] |}, w).

(** For the video "v1": an "en" file without events, an "en-US" file
    with the hello-world body. *)
Definition two_candidates : world unit :=
  {| ext := tt;
     files := fun p =>
       if str_eqb p (py "/tmp/yt_transcript_v1.en.json3")
       then Some {| body := Returned (JObj []); removable := true |}
       else if str_eqb p (py "/tmp/yt_transcript_v1.en-US.json3")
       then Some {| body := Returned hello_world; removable := true |}
       else None |}.

(** *** The listing tool *)

(** The stdout of the example: two lines [id|title]. *)
Definition two_lines : str :=
  py "abc123|My Title" ++ ["010"%char] ++ py "def456|Other" ++ ["010"%char].

(** A listing tool that exits with code 1 and a diagnostic. *)
Definition failing_tool : subprocess unit :=
  fun _ _ w => (Returned {| returncode := 1%Z; stdout := [];
                            stderr := py "ERROR: channel not found" |}, w).

(** A tool on which the wait elapses. *)
Definition slow_tool : subprocess unit := fun _ _ w => (Raised TimeoutExpired, w).

Definition no_files : world unit := {| ext := tt; files := fun _ => None |}.

(** *** Batch runs *)

(** The URL yields a video id. *)
Definition resolvable (url : str) : bool :=
  negb (Fetcher.falsy (Fetcher.extract_video_id url)).

(** A subtitle tool that writes the hello-world captions of every
    video but "vid2", for which it writes nothing and exits with 1.
    The tenth word of the command is the output path. *)
Definition caption_tool : subprocess unit :=
  fun cmd _ w =>
    let out := nth 9 cmd [] in
    if str_eqb out (py "/tmp/yt_transcript_vid2")
    then (Returned {| returncode := 1%Z; stdout := [];
                      stderr := py "ERROR: no captions" |}, w)
    else (Returned {| returncode := 0%Z; stdout := []; stderr := [] |},
          {| ext := ext w;
             files := fun p =>
               if str_eqb p (out ++ py ".en.json3")
               then Some {| body := Returned hello_world; removable := true |}
               else files w p |}).

(** Three lines of an input file; the fetch of the second fails. *)
Definition three_videos : list str :=
  [ py "https://www.youtube.com/watch?v=vid1" ++ ["010"%char];
    py "https://www.youtube.com/watch?v=vid2" ++ ["010"%char];
    py "https://www.youtube.com/watch?v=vid3" ++ ["010"%char] ].

(** Three lines of an input file; the second is no video URL. *)
Definition three_lines_one_invalid : list str :=
  [ py "https://www.youtube.com/watch?v=vid1" ++ ["010"%char];
    py "https://example.com/about" ++ ["010"%char];
    py "https://www.youtube.com/watch?v=vid3" ++ ["010"%char] ].

(** *** Order of first occurrence *)

(** The least position among the matches [ms], given with their
    positions, whose cleaned text is [u]. *)
Fixpoint first_pos (clean : str -> str) (ms : list (nat * str)) (u : str)
  : option nat :=
  match ms with
  | [] => None
  | (p, w) :: ms' =>
      if str_eqb (clean w) u
      then Some (match first_pos clean ms' u with
                 | Some q => Nat.min p q
                 | None => p
                 end)
      else first_pos clean ms' u
  end.

(** [out] lists its elements in the order of their first positions. *)
Definition in_first_occurrence_order (clean : str -> str) (ms : list (nat * str))
           (out : list str) : Prop :=
  forall i j u v,
    i < j -> nth_error out i = Some u -> nth_error out j = Some v ->
    exists p q, first_pos clean ms u = Some p /\ first_pos clean ms v = Some q /\ p < q.

(** The matches of the two video patterns in a text, each with its
    position in the text. *)
Definition video_matches (content : str) : list (nat * str) :=
  flat_map (fun pattern => finditer pattern content) youtube_patterns.

(** The same with ranks for positions: a watch URL has its position, a
    shorts URL its position after the length of the text, so that every
    watch URL ranks before every shorts URL. *)
Definition ranked_video_matches (content : str) : list (nat * str) :=
  finditer watch_pattern content
  ++ map (fun m => (length content + fst m, snd m)) (finditer shorts_pattern content).

(** The matches a loop that removes duplicates keeps, with their
    positions, when it starts with the set [seen]. *)
Fixpoint kept (clean : str -> str) (seen : list str) (ms : list (nat * str))
  : list (nat * str) :=
  match ms with
  | [] => []
  | (p, w) :: ms' =>
      if mem (clean w) seen then kept clean seen ms'
      else (p, clean w) :: kept clean (clean w :: seen) ms'
  end.

(** A text with a shorts URL before a watch URL. *)
Definition shorts_then_watch : str :=
  py "see https://youtube.com/shorts/abc and https://www.youtube.com/watch?v=xyz&t=3".

End Spec.

Import Py Re Exc Json OS Scorer Spec.

(* ================================================================== *)
(** ** extract_channel_videos.py: the batch over channels *)
(* ================================================================== *)

Module ChannelBatch.
Import Py Re Exc OS UrlExtractor Channels.

(** [get_channel_name(channel_url)]: group 1 of [@([\w\-\.]+)], or
    'unknown'. *)
Definition get_channel_name (channel_url : str) : str :=
  match Fetcher.search_group (py "@", handle_char) channel_url with
  | Some g => g
  | None => py "unknown"
  end.

(** A video record after [video['channel_name'] = ...] and
    [video['channel_url'] = ...]. *)
Record tagged_video : Type :=
  { tv_video_id : str; tv_title : str; tv_url : str;
    tv_channel_name : str; tv_channel_url : str }.

Definition tag (channel_name channel_url : str) (v : video) : tagged_video :=
  {| tv_video_id := video_id v; tv_title := title v; tv_url := url v;
     tv_channel_name := channel_name; tv_channel_url := channel_url |}.

(** A value of [channel_stats]: with ['videos'] on success, with
    ['error'] on failure. *)
Record channel_entry : Type :=
  { ce_channel_url : str; ce_video_count : nat;
    ce_videos : option (list tagged_video); ce_error : option error_text }.

(** [d[k] = v] on a dict kept in insertion order. *)
Fixpoint dict_put {V : Type} (k : str) (v : V) (d : list (str * V)) : list (str * V) :=
  match d with
  | [] => [(k, v)]
  | (k', v') :: d' =>
      if str_eqb k' k then (k', v) :: d' else (k', v') :: dict_put k v d'
  end.

(** What [process_channels] does to the outside, in order. *)
Inductive cevent : Type :=
| CMkdir (dir : str)
| CPrintFound (channels : nat)
| CPrintProcessing (i total : nat) (channel_name : str)
| CPrintVideos (count : nat)
| CPrintError (error : error_text)
| CDumpVideos (path : str) (videos : list tagged_video)
| CPrintTotal (videos : nat)
| CWriteText (path content : str)
| CDumpStats (path : str) (stats : list (str * channel_entry))
| CWriteReport (path : str) (channels videos : nat) (rows : list (str * channel_entry)).

Section Batch.
Context {X : Type}.
Variable run : subprocess X.
Variable output_dir : str.
Variable max_videos_per_channel : option nat.

Record cstate : Type :=
  { c_world : world X;
    all_videos : list tagged_video;
    channel_stats : list (str * channel_entry);
    c_trace : list cevent }.

Definition cemit (ev : cevent) (st : cstate) : cstate :=
  {| c_world := c_world st; all_videos := all_videos st;
   channel_stats := channel_stats st; c_trace := c_trace st ++ [ev] |}.

(** The body of the loop of [process_channels] for channel [i]. *)
Definition process_channel (total i : nat) (channel_url : str) (st : cstate)
  : outcome unit * cstate :=
  let channel_name := get_channel_name channel_url in
  let st := cemit (CPrintProcessing i total channel_name) st in
  match fetch_channel_videos run channel_url max_videos_per_channel (c_world st) with
  | (Raised e, w') =>
    (Raised e, {| c_world := w'; all_videos := all_videos st;
                  channel_stats := channel_stats st; c_trace := c_trace st |})
  | (Returned (Success videos), w') =>
    let tagged := map (tag channel_name channel_url) videos in
    (Returned tt,
     cemit (CDumpVideos (output_dir ++ py "/" ++ channel_name ++ py "_videos.json") tagged)
       {| c_world := w';
          all_videos := all_videos st ++ tagged;
          channel_stats :=
            dict_put channel_name
              {| ce_channel_url := channel_url; ce_video_count := length videos;
                 ce_videos := Some tagged; ce_error := None |}
              (channel_stats st);
          c_trace := c_trace st ++ [CPrintVideos (length videos)] |})
  | (Returned (Failure error), w') =>
    (Returned tt,
     {| c_world := w';
        all_videos := all_videos st;
        channel_stats :=
          dict_put channel_name
            {| ce_channel_url := channel_url; ce_video_count := 0;
               ce_videos := None; ce_error := Some error |}
            (channel_stats st);
        c_trace := c_trace st ++ [CPrintError error] |})
  end.

(** [for i, channel_url in enumerate(channels, 1)], from channel [i] on. *)
Fixpoint channel_loop (total i : nat) (channels : list str) (st : cstate)
  : outcome unit * cstate :=
  match channels with
  | [] => (Returned tt, st)
  | channel_url :: rest =>
    match process_channel total i channel_url st with
    | (Raised e, st') => (Raised e, st')
    | (Returned _, st') => channel_loop total (S i) rest st'
    end
  end.

(** The text of all_video_urls.txt. *)
Definition urls_text (videos : list tagged_video) : str :=
  flat_map (fun v => tv_url v ++ ["010"%char]) videos.

(** [sorted(channel_stats.items(), key=..., reverse=True)] *)
Definition sorted_stats (stats : list (str * channel_entry)) : list (str * channel_entry) :=
  Scorer.sorted_desc (fun kv => ce_video_count (snd kv)) stats.

(** [process_channels(channels_file, output_dir, max_videos_per_channel)],
  on the content of the channels file.  Writing a file is taken to
  succeed. *)
Definition process_channels (content : str) (w : world X) : outcome unit * cstate :=
  let channels := extract_channel_urls content in
  let st := {| c_world := w; all_videos := []; channel_stats := [];
             c_trace := [ CMkdir output_dir; CPrintFound (length channels) ] |} in
  match channel_loop (length channels) 1 channels st with
  | (Raised e, st') => (Raised e, st')
  | (Returned _, st') =>
    let st := cemit (CPrintTotal (length (all_videos st'))) st' in
    let st := cemit (CDumpVideos (output_dir ++ py "/all_videos.json") (all_videos st)) st in
    let st := cemit (CWriteText (output_dir ++ py "/all_video_urls.txt")
                       (urls_text (all_videos st))) st in
    let st := cemit (CDumpStats (output_dir ++ py "/channel_stats.json")
                       (channel_stats st)) st in
    let st := cemit (CWriteReport (output_dir ++ py "/channel_report.txt")
                       (length channels) (length (all_videos st))
                       (sorted_stats (channel_stats st))) st in
    (Returned tt, st)
  end.

End Batch.
Arguments cstate X : clear implicits.

End ChannelBatch.

(* ================================================================== *)
(** ** Further notions *)
(* ================================================================== *)

Module Notions.
Import Py Re Exc Json OS Scorer UrlExtractor ChannelBatch.

(** The longest prefix of [s] whose characters satisfy [p], and what
    follows it. *)
Fixpoint take_while (p : ascii -> bool) (s : str) : str :=
  match s with
  | c :: s' => if p c then c :: take_while p s' else []
  | [] => []
  end.

Fixpoint drop_while (p : ascii -> bool) (s : str) : str :=
  match s with
  | c :: s' => if p c then drop_while p s' else s
  | [] => []
  end.

(** *** Transcript files *)

(** The line of eighty '=' between header and text. *)
Definition separator : str := times "="%char 80.

(** The header that [process_videos] writes before the separator. *)
Definition header (video_id url : str) : str :=
  py "Video ID: " ++ video_id ++ ["010"%char]
  ++ py "URL: " ++ url ++ ["010"%char]
  ++ py "Language: en" ++ ["010"%char]
  ++ py "Method: yt-dlp" ++ ["010"%char]
  ++ ["010"%char].

(** A line that [load_transcript] takes for a header field. *)
Definition header_like (line : str) : bool :=
  startswith (py "Video ID:") line || startswith (py "URL:") line.

(** The file that [process_videos] writes for a fetched video. *)
Definition written_file (name video_id url text : str) : file :=
  {| name := name;
     data := Some (Fetcher.transcript_file video_id url (py "en") (py "yt-dlp") text) |}.

(** The video id the batch runner uses for a URL. *)
Definition id_of (url : str) : str :=
  match Fetcher.extract_video_id url with Some v => v | None => [] end.

(** A tool that behaves as [inner] and keeps a log of the commands it
    was run with. *)
Definition recording {X : Type} (inner : subprocess X) : subprocess (list (list str) * X) :=
  fun cmd timeout w =>
    let (o, w') := inner cmd timeout {| ext := snd (ext w); files := files w |} in
    (o, {| ext := (fst (ext w) ++ [cmd], ext w'); files := files w' |}).

(** The commands a recording tool has logged so far. *)
Definition log_of {X : Type} (st : Fetcher.state (list (list str) * X)) : list (list str) :=
  fst (ext (Fetcher.st_world st)).

(** The sum of the video counts of the channel statistics. *)
Definition stats_total (stats : list (str * channel_entry)) : nat :=
  list_sum (map (fun kv => ce_video_count (snd kv)) stats).

(** The prefix of every channel URL. *)
Definition channel_prefix : str := py "https://www.youtube.com/@".

(** *** What a batch run leaves *)

(** [a] is [b] with some elements left out. *)
Inductive subseq {A : Type} : list A -> list A -> Prop :=
| subseq_nil : subseq [] []
| subseq_skip : forall a b x, subseq a b -> subseq a (x :: b)
| subseq_keep : forall a b x, subseq a b -> subseq (x :: a) (x :: b).

(** The files written in a run, with their contents, in order. *)
Definition written (tr : list Fetcher.event) : list (str * str) :=
  flat_map (fun ev => match ev with Fetcher.EvWrite p c => [(p, c)] | _ => [] end) tr.

(** The failure lists dumped in a run, with the paths. *)
Definition dumped (tr : list Fetcher.event) : list (str * list Fetcher.failure_record) :=
  flat_map (fun ev => match ev with Fetcher.EvDumpFailed p l => [(p, l)] | _ => [] end) tr.

(** A failure record is either of an invalid URL, without id, or of a
    failed fetch, with the id of its URL. *)
Definition failure_ok (r : Fetcher.failure_record) : Prop :=
  match Fetcher.f_video_id r with
  | None => Fetcher.f_error r = Text (py "Invalid URL")
            /\ Fetcher.extract_video_id (Fetcher.f_url r) = None
  | Some id => Fetcher.extract_video_id (Fetcher.f_url r) = Some id
  end.

(** A written file is the transcript file of one of the URLs. *)
Definition write_ok (output_dir : str) (urls : list str) (pc : str * str) : Prop :=
  exists url id text,
    In url urls /\ Fetcher.extract_video_id url = Some id
    /\ fst pc = output_dir ++ py "/" ++ id ++ py ".txt"
    /\ snd pc = Fetcher.transcript_file id url (py "en") (py "yt-dlp") text.

End Notions.


Import Notions.

(* ================================================================== *)
(** ** Keyword matching *)
(* ================================================================== *)

Lemma str_eqb_eq (a b : str) : str_eqb a b = true <-> a = b.
Proof. unfold str_eqb. destruct (list_eq_dec ascii_dec a b); split; congruence. Qed.

Lemma str_eqb_refl (a : str) : str_eqb a a = true.
Proof. apply str_eqb_eq. reflexivity. Qed.

Lemma str_eqb_neq (a b : str) : str_eqb a b = false <-> a <> b.
Proof. unfold str_eqb. destruct (list_eq_dec ascii_dec a b); split; congruence. Qed.

Lemma is_word_lower (c : ascii) : is_word (lower_char c) = is_word c.
Proof. destruct c as [[] [] [] [] [] [] [] []]; reflexivity. Qed.

Lemma is_word_same_case (x y : ascii) :
  lower_char x = lower_char y -> is_word x = is_word y.
Proof. intro H. rewrite <- (is_word_lower x), H. apply is_word_lower. Qed.

Lemma vocabulary_ok :
  forallb (fun k => word_ended k && no_self_overlap k) FITNESS_KEYWORDS = true.
Proof. vm_compute. reflexivity. Qed.

(** *** The literal part of a keyword pattern *)

Lemma run_lit_i (kw : str) : forall prev s,
  run (lit_i kw) prev s =
  if same_ignoring_case (firstn (length kw) s) kw
  then [(firstn (length kw) s, skipn (length kw) s)] else [].
Proof.
  unfold same_ignoring_case.
  induction kw as [|c kw IH]; intros prev s.
  - reflexivity.
  - change (lit_i (c :: kw)) with (Cat (ChrI c) (lit_i kw)).
    destruct s as [|x s]; [reflexivity|].
    cbn [run flat_map length firstn skipn lower map].
    destruct (Ascii.eqb (lower_char x) (lower_char c)) eqn:E.
    + apply Ascii.eqb_eq in E.
      cbn [flat_map]. rewrite IH, app_nil_r.
      destruct (str_eqb (lower (firstn (length kw) s)) (lower kw)) eqn:E2.
      * apply str_eqb_eq in E2. unfold lower in *.
        rewrite E, E2, str_eqb_refl. reflexivity.
      * apply str_eqb_neq in E2.
        replace (str_eqb _ _) with false; [reflexivity|].
        symmetry. apply str_eqb_neq. unfold lower in *. congruence.
    + apply Ascii.eqb_neq in E.
      replace (str_eqb _ _) with false; [reflexivity|].
      symmetry. apply str_eqb_neq. congruence.
Qed.

Lemma same_case_hd (a b : str) :
  lower a = lower b -> word_opt (hd_error a) = word_opt (hd_error b).
Proof.
  destruct a, b; cbn; try discriminate; auto.
  intro H. injection H as H _. now apply is_word_same_case.
Qed.

Lemma same_case_last (a b : str) :
  lower a = lower b -> word_opt (hd_error (rev a)) = word_opt (hd_error (rev b)).
Proof.
  intro H. apply same_case_hd. unfold lower in *. now rewrite !map_rev, H.
Qed.

Lemma prev_after_word (prev : option ascii) (w : str) :
  word_opt (hd_error (rev w)) = true -> word_opt (prev_after prev w) = true.
Proof. unfold prev_after. destruct (rev w); cbn; [discriminate | auto]. Qed.

Lemma run_keyword_pattern (kw : str) (prev : option ascii) (s : str) :
  run (keyword_pattern kw) prev s =
  if xorb (word_opt prev) (word_opt (hd_error s))
  then if same_ignoring_case (firstn (length kw) s) kw
       then if xorb (word_opt (prev_after prev (firstn (length kw) s)))
                    (word_opt (hd_error (skipn (length kw) s)))
            then [(firstn (length kw) s, skipn (length kw) s)]
            else []
       else []
  else [].
Proof.
  unfold keyword_pattern.
  change (run (Cat WordB ?r) prev s)
    with (flat_map (fun '(w1, s1) =>
                      map (fun '(w2, s2) => (w1 ++ w2, s2)) (run r (prev_after prev w1) s1))
                   (if xorb (word_opt prev) (word_opt (hd_error s)) then [([], s)] else [])).
  destruct (xorb (word_opt prev) (word_opt (hd_error s))); [|reflexivity].
  cbn [flat_map]. rewrite app_nil_r.
  change (prev_after prev []) with prev.
  change (run (Cat ?a WordB) prev s)
    with (flat_map (fun '(w1, s1) =>
                      map (fun '(w2, s2) => (w1 ++ w2, s2)) (run WordB (prev_after prev w1) s1))
                   (run a prev s)).
  rewrite run_lit_i.
  destruct (same_ignoring_case (firstn (length kw) s) kw); [|reflexivity].
  cbn [flat_map run]. rewrite app_nil_r.
  destruct (xorb _ _); cbn; [now rewrite app_nil_r | reflexivity].
Qed.

Lemma match_here_keyword (kw : str) (prev : option ascii) (s : str) :
  word_ended kw = true ->
  match_here (keyword_pattern kw) prev s =
  if whole_word_here kw prev s then Some (firstn (length kw) s) else None.
Proof.
  unfold word_ended, whole_word_here, match_here.
  intros [Hfirst Hlast]%andb_prop.
  rewrite run_keyword_pattern.
  destruct (same_ignoring_case (firstn (length kw) s) kw) eqn:E.
  - pose proof E as E'. apply str_eqb_eq in E'.
    assert (Hhd : word_opt (hd_error s) = true).
    { rewrite <- Hfirst, <- (same_case_hd _ _ E').
      destruct kw; [discriminate|]. destruct s; reflexivity. }
    assert (Hpa : word_opt (prev_after prev (firstn (length kw) s)) = true).
    { apply prev_after_word. now rewrite (same_case_last _ _ E'). }
    rewrite Hhd, Hpa, Bool.xorb_true_r, Bool.andb_true_r.
    destruct (word_opt prev); cbn; [reflexivity|].
    destruct (word_opt (hd_error (skipn (length kw) s))); reflexivity.
  - rewrite Bool.andb_false_r. cbn.
    destruct (xorb _ _); reflexivity.
Qed.

Lemma same_case_opt (a b : option ascii) :
  option_map lower_char a = option_map lower_char b -> word_opt a = word_opt b.
Proof.
  destruct a, b; cbn; try discriminate; auto.
  intro H. injection H as H. now apply is_word_same_case.
Qed.

Lemma lower_firstn n s : lower (firstn n s) = firstn n (lower s).
Proof. unfold lower. symmetry. apply firstn_map. Qed.

Lemma lower_skipn n s : lower (skipn n s) = skipn n (lower s).
Proof. unfold lower. symmetry. apply skipn_map. Qed.

Lemma lower_length s : length (lower s) = length s.
Proof. apply length_map. Qed.

Lemma nth_error_lower s i :
  nth_error (lower s) i = option_map lower_char (nth_error s i).
Proof. apply nth_error_map. Qed.

Lemma whole_word_here_parts kw prev s :
  whole_word_here kw prev s = true ->
  word_opt prev = false /\ lower (firstn (length kw) s) = lower kw.
Proof.
  unfold whole_word_here, same_ignoring_case.
  intros [[H1 H2]%andb_prop _]%andb_prop.
  apply negb_true_iff in H1. apply str_eqb_eq in H2. auto.
Qed.

(** Two whole-word occurrences of a vocabulary keyword do not overlap. *)
Lemma no_overlap kw prev s d :
  no_self_overlap kw = true ->
  whole_word_here kw prev s = true ->
  0 < d < length kw ->
  whole_word_here kw (nth_error s (d - 1)) (skipn d s) = false.
Proof.
  intros Hno H1 Hd.
  destruct (whole_word_here kw (nth_error s (d - 1)) (skipn d s)) eqn:H2; [|reflexivity].
  exfalso.
  apply whole_word_here_parts in H1 as [_ E1].
  apply whole_word_here_parts in H2 as [W2 E2].
  unfold no_self_overlap in Hno. rewrite forallb_forall in Hno.
  specialize (Hno d). rewrite in_seq in Hno.
  assert (Hov : self_overlap_at kw d = true);
    [|rewrite Hov in Hno; cbn in Hno; assert (false = true) by (apply Hno; lia);
      discriminate].
  unfold self_overlap_at, same_ignoring_case.
  apply andb_true_intro; split.
  - apply negb_true_iff. rewrite <- W2. apply same_case_opt.
    rewrite <- !nth_error_lower, <- E1, lower_firstn.
    rewrite nth_error_firstn.
    destruct (d - 1 <? length kw) eqn:L; [reflexivity|].
    apply Nat.ltb_ge in L. lia.
  - apply str_eqb_eq.
    rewrite lower_skipn, <- E1, <- lower_skipn, skipn_firstn_comm.
    rewrite (lower_firstn _ kw), <- E2, <- lower_firstn, firstn_firstn.
    now rewrite Nat.min_l by lia.
Qed.

Lemma matched_length kw prev s :
  whole_word_here kw prev s = true -> length (firstn (length kw) s) = length kw.
Proof.
  intros [_ E]%whole_word_here_parts.
  now rewrite <- (lower_length (firstn _ _)), E, lower_length.
Qed.

(** The scan of [re.findall] meets every whole-word occurrence. *)
Lemma finditer_from_keyword kw :
  word_ended kw = true -> no_self_overlap kw = true ->
  forall s prev pos skip,
    (forall d, d < skip -> whole_word_here kw (before_in prev s d) (skipn d s) = false) ->
    map fst (finditer_from (keyword_pattern kw) prev pos skip s) = occs_from kw prev pos s.
Proof.
  intros Hw Hno. induction s as [|c s IH]; intros prev pos skip Hskip; [reflexivity|].
  cbn [finditer_from occs_from]. destruct skip as [|k].
  - rewrite match_here_keyword by assumption.
    destruct (whole_word_here kw prev (c :: s)) eqn:E.
    + cbn [map fst app]. f_equal.
      rewrite (matched_length _ _ _ E).
      apply IH. intros d Hd.
      replace (before_in (Some c) s d) with (nth_error (c :: s) (S d - 1))
        by (destruct d; reflexivity).
      change (skipn d s) with (skipn (S d) (c :: s)).
      eapply no_overlap; eauto. lia.
    + cbn [app]. apply IH. intros d Hd. lia.
  - pose proof (Hskip 0 ltac:(lia)) as H0. cbn [before_in skipn] in H0.
    rewrite H0. cbn [app].
    apply IH. intros d Hd.
    specialize (Hskip (S d)). cbn [before_in skipn] in Hskip.
    destruct d; cbn [before_in]; apply Hskip; lia.
Qed.

Lemma before_app pre s : before (pre ++ s) (length pre) = hd_error (rev pre).
Proof.
  destruct pre as [|a pre] using rev_ind; [reflexivity|].
  rewrite rev_app_distr, length_app, Nat.add_1_r. cbn.
  rewrite <- app_assoc, nth_error_app2 by lia. now rewrite Nat.sub_diag.
Qed.

Lemma hd_error_skipn (s : str) n : hd_error (skipn n s) = nth_error s n.
Proof.
  revert s. induction n; intros [|c s]; cbn; auto.
Qed.

Lemma whole_word_at_here kw pre s :
  whole_word_at kw (pre ++ s) (length pre) = whole_word_here kw (hd_error (rev pre)) s.
Proof.
  unfold whole_word_at, whole_word_here.
  rewrite before_app, skipn_app, skipn_all, Nat.sub_diag.
  rewrite nth_error_app2 by lia.
  replace (length pre + length kw - length pre) with (length kw) by lia.
  now rewrite hd_error_skipn.
Qed.

Lemma occs_from_index kw : forall s pre,
  occs_from kw (hd_error (rev pre)) (length pre) s =
  filter (whole_word_at kw (pre ++ s)) (seq (length pre) (length s)).
Proof.
  induction s as [|c s IH]; intros pre; [reflexivity|].
  cbn [occs_from length seq filter].
  rewrite whole_word_at_here.
  specialize (IH (pre ++ [c])).
  rewrite rev_app_distr, length_app, Nat.add_1_r, <- app_assoc in IH.
  cbn in IH. rewrite IH.
  destruct (whole_word_here kw (hd_error (rev pre)) (c :: s)); reflexivity.
Qed.

(** [re.findall] reports exactly the whole-word occurrences. *)
Lemma finditer_keyword kw text :
  word_ended kw = true -> no_self_overlap kw = true ->
  map fst (finditer (keyword_pattern kw) text) = occurrences kw text.
Proof.
  intros Hw Hno. unfold finditer, occurrences.
  rewrite finditer_from_keyword by (auto; intros; lia).
  apply (occs_from_index kw text []).
Qed.

Lemma keyword_count_occurrences kw text :
  word_ended kw = true -> no_self_overlap kw = true ->
  keyword_count kw text = length (occurrences kw text).
Proof.
  intros Hw Hno. unfold keyword_count, findall.
  rewrite <- finditer_keyword by assumption. now rewrite !length_map.
Qed.

Lemma whole_word_at_same_case kw text text' i :
  lower text' = lower text ->
  whole_word_at kw text' i = whole_word_at kw text i.
Proof.
  intro H. unfold whole_word_at, same_ignoring_case.
  rewrite !lower_firstn, !lower_skipn, H.
  f_equal; [f_equal|]; f_equal; apply same_case_opt.
  - destruct i; cbn; [reflexivity|]. now rewrite <- !nth_error_lower, H.
  - now rewrite <- !nth_error_lower, H.
Qed.

Lemma occurrences_same_case kw text text' :
  lower text' = lower text -> occurrences kw text' = occurrences kw text.
Proof.
  intro H. unfold occurrences.
  rewrite <- (lower_length text'), H, lower_length.
  apply filter_ext. intro i. now apply whole_word_at_same_case.
Qed.

Lemma vocabulary_keyword kw :
  In kw FITNESS_KEYWORDS -> word_ended kw = true /\ no_self_overlap kw = true.
Proof.
  intro H. pose proof vocabulary_ok as V. rewrite forallb_forall in V.
  now apply andb_prop, V.
Qed.

Lemma mem_In (x : str) (l : list str) : mem x l = true -> In x l.
Proof.
  unfold mem. rewrite existsb_exists. intros (y & Hy & E).
  apply str_eqb_eq in E. now subst.
Qed.

(** C1.  Keyword matching is word-boundary-delimited and case-insensitive.
    For every keyword of the vocabulary and every text, the matches that
    [re.findall] reports are exactly the positions at which the keyword
    stands up to letter case with no word character immediately before or
    after it; so an occurrence inside a longer word is not counted, and
    changing the letter case of the text changes no count.  In particular
    "squatting" gives no match for "squat" and "Squat" gives one. *)
Theorem keyword_match_whole_word_ignoring_case :
  forall keyword text : str,
    In keyword FITNESS_KEYWORDS ->
    map fst (finditer (keyword_pattern keyword) text) = occurrences keyword text
    /\ keyword_count keyword text = length (occurrences keyword text)
    /\ (forall i, In i (map fst (finditer (keyword_pattern keyword) text)) ->
          word_opt (before text i) = false
          /\ same_ignoring_case (firstn (length keyword) (skipn i text)) keyword = true
          /\ word_opt (nth_error text (i + length keyword)) = false)
    /\ (forall text', lower text' = lower text ->
          keyword_count keyword text' = keyword_count keyword text)
    /\ keyword_count (py "squat") (py "squatting") = 0
    /\ keyword_count (py "squat") (py "Squat") = 1.
Proof.
  intros keyword text Hk.
  destruct (vocabulary_keyword keyword Hk) as [Hw Hno].
  split; [now apply finditer_keyword|].
  split; [now apply keyword_count_occurrences|].
  split.
  - intros i Hi. rewrite finditer_keyword in Hi by assumption.
    apply filter_In in Hi as [_ Hi]. unfold whole_word_at in Hi.
    apply andb_prop in Hi as [[H1 H2]%andb_prop H3].
    apply negb_true_iff in H1, H3. auto.
  - split; [|split; reflexivity].
    intros text' Hc.
    rewrite !keyword_count_occurrences by assumption.
    now rewrite (occurrences_same_case keyword text text' Hc).
Qed.

Lemma keyword_match_witness :
  In (py "squat") FITNESS_KEYWORDS
  /\ keyword_count (py "squat") (py "Squat! squatting, squats; SQUAT") = 2.
Proof.
  assert (H : In (py "squat") FITNESS_KEYWORDS)
    by (apply mem_In; vm_compute; reflexivity).
  split; [exact H|].
  rewrite (proj1 (proj2 (keyword_match_whole_word_ignoring_case
                           (py "squat") (py "Squat! squatting, squats; SQUAT") H))).
  vm_compute. reflexivity.
Defined.
(* ================================================================== *)
(** ** Scores and ranking *)
(* ================================================================== *)

(** *** Sorting *)

Section SortDescFacts.
Context {A : Type}.
Variable key : A -> nat.

Definition desc (a b : A) : Prop := key b <= key a.

Lemma insert_desc_perm x l : Permutation (insert_desc key x l) (x :: l).
Proof.
  induction l as [|y l IH]; cbn [insert_desc]; [reflexivity|].
  destruct (key x <? key y); [|reflexivity].
  rewrite IH. apply perm_swap.
Qed.

Lemma sorted_desc_perm l : Permutation (sorted_desc key l) l.
Proof.
  induction l as [|x l IH]; cbn [sorted_desc fold_right]; [reflexivity|].
  fold (sorted_desc key l). rewrite insert_desc_perm. now constructor.
Qed.

Lemma insert_desc_sorted x l :
  Sorted desc l -> Sorted desc (insert_desc key x l).
Proof.
  induction 1 as [|y l Hs IH Hd]; cbn [insert_desc]; [repeat constructor|].
  destruct (key x <? key y) eqn:E.
  - constructor; [assumption|].
    apply Nat.ltb_lt in E.
    destruct l as [|z l]; cbn [insert_desc] in *.
    + constructor. unfold desc. lia.
    + destruct (key x <? key z); constructor.
      * now inversion Hd.
      * unfold desc. lia.
  - apply Nat.ltb_ge in E. repeat constructor; assumption.
Qed.

Lemma sorted_desc_sorted l : Sorted desc (sorted_desc key l).
Proof.
  induction l; cbn [sorted_desc fold_right]; [constructor | now apply insert_desc_sorted].
Qed.

Lemma desc_trans : Relations_1.Transitive desc.
Proof. intros a b c. unfold desc. lia. Qed.

Lemma sorted_desc_strongly l : StronglySorted desc (sorted_desc key l).
Proof. apply Sorted_StronglySorted; [apply desc_trans | apply sorted_desc_sorted]. Qed.
End SortDescFacts.

(** *** The score *)

Lemma score_step_total text acc keyword :
  fst (score_step text acc keyword) = fst acc + keyword_count keyword text.
Proof.
  unfold score_step. destruct acc as [total matches].
  destruct (0 <? keyword_count keyword text) eqn:E; cbn [fst]; [reflexivity|].
  apply Nat.ltb_ge in E. lia.
Qed.

Lemma fold_score_total text order : forall acc,
  fst (fold_left (score_step text) order acc) =
  fst acc + list_sum (map (fun k => keyword_count k text) order).
Proof.
  induction order as [|k order IH]; intro acc; cbn [fold_left map list_sum fold_right]; [lia|].
  rewrite IH, score_step_total. fold (list_sum (map (fun k => keyword_count k text) order)). lia.
Qed.

Lemma list_sum_perm (l l' : list nat) : Permutation l l' -> list_sum l = list_sum l'.
Proof. unfold list_sum. induction 1; cbn in *; lia. Qed.

Lemma score_total order text :
  Permutation order FITNESS_KEYWORDS ->
  fst (calculate_fitness_score order text) = total_matches text.
Proof.
  intro P. unfold calculate_fitness_score, total_matches.
  rewrite fold_score_total. cbn [fst plus].
  rewrite (list_sum_perm _ _ (Permutation_map _ P)).
  f_equal. apply map_ext_in. intros k Hk.
  destruct (vocabulary_keyword _ Hk). now apply keyword_count_occurrences.
Qed.

Lemma score_file_spec order min_score f :
  Permutation order FITNESS_KEYWORDS ->
  score_file order min_score f =
  match load_transcript f with
  | None => None
  | Some t =>
      if min_score <=? total_matches (t_text t)
      then Some {| video_id := t_video_id t; url := t_url t; filename := t_filename t;
                   fitness_score := total_matches (t_text t);
                   top_keywords :=
                     firstn 10 (sorted_desc (@snd str nat)
                                  (snd (calculate_fitness_score order (t_text t)))) |}
      else None
  end.
Proof.
  intro P. unfold score_file.
  destruct (load_transcript f) as [t|]; [|reflexivity].
  rewrite <- (score_total _ (t_text t) P).
  destruct (calculate_fitness_score order (t_text t)); reflexivity.
Qed.

Lemma find_fitness_videos_eq order listing min_score :
  find_fitness_videos order (Some listing) min_score =
  sorted_desc fitness_score
    (flat_map (fun f => present (score_file order min_score f)) (glob_txt listing)).
Proof.
  unfold find_fitness_videos. destruct (glob_txt listing); reflexivity.
Qed.

Lemma load_transcript_name f t : load_transcript f = Some t -> t_filename t = name f.
Proof.
  unfold load_transcript. destruct (data f); [|discriminate].
  destruct (fold_left _ _ _). intro H. injection H as <-. reflexivity.
Qed.

Lemma squat_file_loads :
  exists t, load_transcript squat_file = Some t /\ total_matches (t_text t) = 5
            /\ t_video_id t = py "abc123".
Proof. eexists. split; [vm_compute; reflexivity|]. split; vm_compute; reflexivity. Qed.

(** C2.  For every transcript artifact the total score is the sum of the
    per-keyword whole-word match counts; an artifact that loads yields an
    entry exactly when that score is at least the threshold; the result
    holds the qualifying entries, ranked by descending score.  A
    transcript with "squat" three times and "deadlift" twice has score 5,
    is included at threshold 5 and excluded at threshold 6.  [order] is
    the order in which the run iterates over the keyword set. *)
Theorem score_sum_threshold_ranking :
  forall (order : list str) (listing : list file) (min_score : nat),
    Permutation order FITNESS_KEYWORDS ->
    let ranked := find_fitness_videos order (Some listing) min_score in
    (forall text,
        fst (calculate_fitness_score order text)
        = list_sum (map (fun k => keyword_count k text) order)
        /\ fst (calculate_fitness_score order text) = total_matches text)
    /\ (forall f t, load_transcript f = Some t ->
          (min_score <= total_matches (t_text t) ->
           exists e, score_file order min_score f = Some e
                     /\ fitness_score e = total_matches (t_text t)
                     /\ filename e = name f)
          /\ (total_matches (t_text t) < min_score ->
              score_file order min_score f = None))
    /\ Permutation ranked
         (flat_map (fun f => present (score_file order min_score f)) (glob_txt listing))
    /\ StronglySorted (fun a b => fitness_score b <= fitness_score a) ranked
    /\ map fitness_score (find_fitness_videos order (Some [squat_file]) 5) = [5]
    /\ find_fitness_videos order (Some [squat_file]) 6 = [].
Proof.
  intros order listing min_score P ranked. repeat split.
  - unfold calculate_fitness_score. now rewrite fold_score_total.
  - now apply score_total.
  - intro Hle. rewrite score_file_spec, H by assumption.
    apply Nat.leb_le in Hle. rewrite Hle. eexists. split; [reflexivity|].
    cbn. split; [reflexivity | now apply load_transcript_name].
  - intro Hlt. rewrite score_file_spec, H by assumption.
    apply Nat.leb_gt in Hlt. now rewrite Hlt.
  - unfold ranked. rewrite find_fitness_videos_eq. apply sorted_desc_perm.
  - unfold ranked. rewrite find_fitness_videos_eq.
    apply (sorted_desc_strongly fitness_score).
  - destruct squat_file_loads as (t & L & T & _).
    rewrite find_fitness_videos_eq.
    change (glob_txt [squat_file]) with [squat_file].
    cbn [flat_map]. rewrite score_file_spec, L, T by assumption. reflexivity.
  - destruct squat_file_loads as (t & L & T & _).
    rewrite find_fitness_videos_eq.
    change (glob_txt [squat_file]) with [squat_file].
    cbn [flat_map]. rewrite score_file_spec, L, T by assumption. reflexivity.
Qed.

Lemma score_sum_threshold_ranking_witness :
  Permutation FITNESS_KEYWORDS FITNESS_KEYWORDS
  /\ map fitness_score (find_fitness_videos FITNESS_KEYWORDS (Some [squat_file]) 5) = [5]
  /\ find_fitness_videos FITNESS_KEYWORDS (Some [squat_file]) 6 = [].
Proof.
  split; [apply Permutation_refl|].
  exact (proj2 (proj2 (proj2 (proj2
           (score_sum_threshold_ranking FITNESS_KEYWORDS [squat_file] 5
              (Permutation_refl _)))))).
Defined.
(* ================================================================== *)
(** ** Runs that iterate over the keyword set in different orders *)
(* ================================================================== *)

Lemma dict_set_fresh k v d :
  ~ In k (map fst d) -> dict_set k v d = d ++ [(k, v)].
Proof.
  induction d as [|[k' v'] d IH]; cbn [dict_set map fst In app]; intro H; [reflexivity|].
  destruct (str_eqb k' k) eqn:E.
  - apply str_eqb_eq in E. tauto.
  - rewrite IH by tauto. reflexivity.
Qed.

Lemma matches_of_keys order text k :
  In k (map fst (matches_of order text)) -> In k order.
Proof.
  unfold matches_of. rewrite in_map_iff. intros ([k' c] & <- & H).
  apply in_flat_map in H as (k2 & Hk2 & H).
  destruct (0 <? keyword_count k2 text); [|contradiction].
  destruct H as [H|[]]. injection H as <- _. exact Hk2.
Qed.

Lemma fold_score_matches text order : forall acc,
  NoDup order ->
  (forall k, In k order -> ~ In k (map fst (snd acc))) ->
  snd (fold_left (score_step text) order acc) = snd acc ++ matches_of order text.
Proof.
  induction order as [|k order IH]; intros [total matches] Hnd Hfresh;
    cbn [fold_left matches_of flat_map snd].
  - now rewrite app_nil_r.
  - inversion Hnd as [|? ? Hk Hnd']; subst.
    rewrite IH; [|assumption|].
    + unfold score_step. fold (matches_of order text).
      destruct (0 <? keyword_count k text); cbn [snd].
      * rewrite dict_set_fresh by (apply (Hfresh k); now left).
        now rewrite <- app_assoc.
      * reflexivity.
    + intros k' Hk'. unfold score_step.
      destruct (0 <? keyword_count k text); cbn [snd].
      * rewrite dict_set_fresh by (apply (Hfresh k); now left).
        rewrite map_app, in_app_iff. cbn.
        intros [H|[H|[]]]; [apply (Hfresh k'); [now right | exact H]|].
        subst. contradiction.
      * apply Hfresh. now right.
Qed.

Lemma calculate_matches order text :
  NoDup order -> snd (calculate_fitness_score order text) = matches_of order text.
Proof.
  intro H. unfold calculate_fitness_score.
  rewrite fold_score_matches by (auto; intros ? ? []). reflexivity.
Qed.

Lemma vocabulary_nodup : NoDup FITNESS_KEYWORDS.
Proof.
  assert (E : nodup (list_eq_dec ascii_dec) FITNESS_KEYWORDS = FITNESS_KEYWORDS)
    by (vm_compute; reflexivity).
  rewrite <- E. apply NoDup_nodup.
Qed.

Lemma order_nodup order : Permutation order FITNESS_KEYWORDS -> NoDup order.
Proof.
  intro P. apply (Permutation_NoDup (Permutation_sym P)), vocabulary_nodup.
Qed.

Section SortMap.
Context {A B : Type}.
Variables (keyA : A -> nat) (keyB : B -> nat) (g : A -> B).
Hypothesis key_g : forall x, keyB (g x) = keyA x.

Lemma insert_desc_map x l :
  map g (insert_desc keyA x l) = insert_desc keyB (g x) (map g l).
Proof.
  induction l as [|y l IH]; cbn [insert_desc map]; [reflexivity|].
  rewrite !key_g. destruct (keyA x <? keyA y); cbn [map]; [now rewrite IH | reflexivity].
Qed.

Lemma sorted_desc_map l :
  map g (sorted_desc keyA l) = sorted_desc keyB (map g l).
Proof.
  induction l as [|x l IH]; cbn [sorted_desc fold_right map]; [reflexivity|].
  fold (sorted_desc keyA l). fold (sorted_desc keyB (map g l)).
  now rewrite insert_desc_map, IH.
Qed.
End SortMap.

Lemma strongly_sorted_perm_eq (l1 : list nat) : forall l2,
  StronglySorted (fun a b => b <= a) l1 ->
  StronglySorted (fun a b => b <= a) l2 ->
  Permutation l1 l2 -> l1 = l2.
Proof.
  induction l1 as [|a l1 IH]; intros l2 S1 S2 P.
  - apply Permutation_nil in P. now subst.
  - destruct l2 as [|b l2]; [apply Permutation_sym, Permutation_nil in P; discriminate|].
    inversion S1 as [|? ? S1' F1]; inversion S2 as [|? ? S2' F2]; subst.
    rewrite Forall_forall in F1, F2.
    assert (a = b).
    { apply Nat.le_antisymm.
      - assert (In a (b :: l2)) as [->|Ha]
            by (apply (Permutation_in _ P); now left); [lia | now apply F2].
      - assert (In b (a :: l1)) as [->|Hb]
            by (apply (Permutation_in _ (Permutation_sym P)); now left);
          [lia | now apply F1]. }
    subst. f_equal. apply IH; auto. now apply Permutation_cons_inv in P.
Qed.

Lemma sorted_desc_perm_eq (l1 l2 : list nat) :
  Permutation l1 l2 -> sorted_desc (fun n => n) l1 = sorted_desc (fun n => n) l2.
Proof.
  intro P. apply strongly_sorted_perm_eq.
  - apply (sorted_desc_strongly (fun n => n)).
  - apply (sorted_desc_strongly (fun n => n)).
  - rewrite !sorted_desc_perm. exact P.
Qed.

Lemma top_counts_order order1 order2 text :
  Permutation order1 FITNESS_KEYWORDS -> Permutation order2 FITNESS_KEYWORDS ->
  map snd (firstn 10 (sorted_desc (@snd str nat) (snd (calculate_fitness_score order1 text))))
  = map snd (firstn 10 (sorted_desc (@snd str nat) (snd (calculate_fitness_score order2 text)))).
Proof.
  intros P1 P2.
  rewrite !calculate_matches by now apply order_nodup.
  rewrite <- !firstn_map.
  rewrite !(sorted_desc_map (@snd str nat) (fun n => n) (@snd str nat)) by reflexivity.
  f_equal. apply sorted_desc_perm_eq, Permutation_map.
  unfold matches_of. apply Permutation_flat_map.
  now rewrite P1, P2.
Qed.

Lemma score_file_core order1 order2 min_score f :
  Permutation order1 FITNESS_KEYWORDS -> Permutation order2 FITNESS_KEYWORDS ->
  map entry_core (present (score_file order1 min_score f))
  = map entry_core (present (score_file order2 min_score f)).
Proof.
  intros P1 P2. rewrite !score_file_spec by assumption.
  destruct (load_transcript f) as [t|]; [|reflexivity].
  destruct (min_score <=? total_matches (t_text t)); [|reflexivity].
  cbn [present map]. unfold entry_core. cbn [video_id url filename fitness_score top_keywords].
  now rewrite (top_counts_order order1 order2 (t_text t) P1 P2).
Qed.




(* ================================================================== *)
(** ** The transcript fetcher *)
(* ================================================================== *)

Import Fetcher.

Lemma seg_step_fragment texts seg :
  is_seg seg = true ->
  seg_step texts seg = Returned (texts ++ map JStr (seg_fragment seg)).
Proof.
  unfold is_seg, seg_step, seg_fragment.
  destruct seg as [| | | |l|d]; try discriminate.
  cbn [py_in py_getitem bind].
  destruct (lookup (py "utf8") d) as [[| | |s| |]|]; try discriminate; intros _; cbn.
  - reflexivity.
  - now rewrite app_nil_r.
Qed.

Lemma for_each_segs segs : forall texts,
  forallb is_seg segs = true ->
  for_each seg_step segs texts
  = Returned (texts ++ map JStr (flat_map seg_fragment segs)).
Proof.
  induction segs as [|seg segs IH]; intros texts H; cbn [for_each flat_map].
  - cbn. now rewrite app_nil_r.
  - apply andb_prop in H as [H1 H2].
    rewrite seg_step_fragment by assumption. cbn [bind].
    rewrite IH by assumption. now rewrite map_app, app_assoc.
Qed.

Lemma event_step_fragments texts event :
  is_event event = true ->
  event_step texts event = Returned (texts ++ map JStr (event_fragments event)).
Proof.
  unfold is_event, event_step, event_fragments.
  destruct event as [| | | |l|d]; try discriminate.
  cbn [py_in py_getitem bind].
  destruct (lookup (py "segs") d) as [[| | | |segs|]|]; try discriminate; intro H; cbn [bind py_iter].
  - now apply for_each_segs.
  - cbn. now rewrite app_nil_r.
Qed.

Lemma for_each_events events : forall texts,
  forallb is_event events = true ->
  for_each event_step events texts
  = Returned (texts ++ map JStr (flat_map event_fragments events)).
Proof.
  induction events as [|ev events IH]; intros texts H; cbn [for_each flat_map].
  - cbn. now rewrite app_nil_r.
  - apply andb_prop in H as [H1 H2].
    rewrite event_step_fragments by assumption. cbn [bind].
    rewrite IH by assumption. now rewrite map_app, app_assoc.
Qed.

Lemma strings_of_strs (l : list str) : strings_of (map JStr l) = Returned l.
Proof. induction l as [|s l IH]; cbn; [|rewrite IH]; reflexivity. Qed.

Lemma full_text_subtitle_body data :
  is_subtitle_body data = true ->
  py_in (py "events") data = Returned true
  /\ full_text data = Returned (transcript_text data).
Proof.
  unfold is_subtitle_body, full_text, transcript_text, fragments.
  destruct data as [| | | |l|d]; try discriminate.
  cbn [py_in py_getitem bind].
  destruct (lookup (py "events") d) as [[| | | |events|]|]; try discriminate.
  intro H. split; [reflexivity|]. cbn [bind py_iter].
  rewrite for_each_events by assumption. cbn [bind app].
  now rewrite strings_of_strs.
Qed.

Lemma handlers_return (o : outcome Fetcher.result) : exists r, handlers o = Returned r.
Proof. destruct o as [r|[]]; cbn; eauto. Qed.

Lemma fetch_returns {X : Type} (run : subprocess X) video_id url w :
  exists r, fst (fetch_transcript_ytdlp run video_id url w) = Returned r.
Proof.
  unfold fetch_transcript_ytdlp.
  destruct (fetch_transcript_ytdlp_try run video_id url w) as [o w'].
  apply handlers_return.
Qed.

Lemma fetch_after_run {X : Type} (run : subprocess X) video_id url w res w' :
  run (subtitle_cmd video_id url) 30 w = (Returned res, w') ->
  fst (fetch_transcript_ytdlp run video_id url w)
  = handlers (fst (probe (subtitle_files video_id) (files w'))).
Proof.
  intro H. unfold fetch_transcript_ytdlp, fetch_transcript_ytdlp_try. rewrite H.
  destruct (probe (subtitle_files video_id) (files w')); reflexivity.
Qed.

Lemma probe_passed_over files pre : forall rest,
  forallb (passed_over files) pre = true ->
  probe (pre ++ rest) files = probe rest files.
Proof.
  induction pre as [|c pre IH]; intros rest H; [reflexivity|].
  apply andb_prop in H as [Hc H]. cbn [app probe].
  unfold passed_over in Hc.
  destruct (files c) as [f|]; [|now apply IH].
  destruct (body f) as [d|]; [|discriminate].
  destruct (py_in (py "events") d) as [[]|]; try discriminate. now apply IH.
Qed.

Lemma probe_none files candidates :
  forallb (passed_over files) candidates = true ->
  probe candidates files = (Returned (Failure (Text (py "No subtitles found"))), files).
Proof.
  intro H. rewrite <- (app_nil_r candidates). now rewrite probe_passed_over.
Qed.

Lemma probe_has_events files c f rest :
  files c = Some f -> has_events f = true ->
  fst (probe (c :: rest) files) = fst (probe [c] files).
Proof.
  unfold has_events. intros Hc H. cbn [probe]. rewrite Hc.
  destruct (body f) as [d|]; [|discriminate].
  destruct (py_in (py "events") d) as [[]|]; try discriminate.
  destruct (full_text d); [destruct (removable f)|]; reflexivity.
Qed.

Lemma first_existing_none files candidates :
  first_existing candidates files = None ->
  forallb (passed_over files) candidates = true.
Proof.
  induction candidates as [|c l IH]; cbn; [reflexivity|].
  unfold passed_over at 1. destruct (files c); [discriminate|]. exact IH.
Qed.

Lemma probe_subtitle_body files c f data rest :
  files c = Some f -> body f = Returned data -> removable f = true ->
  is_subtitle_body data = true ->
  fst (probe (c :: rest) files)
  = Returned (Success (transcript_text data) (py "en") (py "yt-dlp")).
Proof.
  intros Hc Hb Hr Hd. cbn [probe]. rewrite Hc, Hb.
  destruct (full_text_subtitle_body data Hd) as [-> ->]. now rewrite Hr.
Qed.

(** *** Bodies of any shape: what the loops collect when they return *)

Lemma seg_step_values texts seg r :
  seg_step texts seg = Returned r -> r = texts ++ seg_values seg.
Proof.
  unfold seg_step, seg_values.
  destruct seg as [| | |s|l|d]; cbn [py_in py_getitem bind]; try discriminate.
  - destruct (contains (py "utf8") s); [discriminate|].
    intro H. injection H as <-. now rewrite app_nil_r.
  - destruct (existsb (is_the_str (py "utf8")) l); [discriminate|].
    intro H. injection H as <-. now rewrite app_nil_r.
  - destruct (lookup (py "utf8") d) as [v|]; cbn [bind]; intro H; injection H as <-;
      [reflexivity | now rewrite app_nil_r].
Qed.

Lemma for_each_seg_values segs : forall texts r,
  for_each seg_step segs texts = Returned r ->
  r = texts ++ flat_map seg_values segs.
Proof.
  induction segs as [|seg segs IH]; intros texts r; cbn [for_each flat_map].
  - intro H. injection H as <-. now rewrite app_nil_r.
  - destruct (seg_step texts seg) as [texts'|] eqn:E; cbn [bind]; [|discriminate].
    apply seg_step_values in E. subst texts'. intro H.
    apply IH in H. now rewrite H, app_assoc.
Qed.

Lemma seg_values_strs (l : list str) : flat_map seg_values (map JStr l) = [].
Proof. induction l; cbn; auto. Qed.

Lemma seg_values_keys (d : list (str * json)) :
  flat_map seg_values (map (fun kv => JStr (fst kv)) d) = [].
Proof. induction d; cbn; auto. Qed.

Lemma seg_values_chars (s : str) :
  flat_map seg_values (map (fun c => JStr [c]) s) = [].
Proof. induction s; cbn; auto. Qed.

Lemma event_step_values texts event r :
  event_step texts event = Returned r -> r = texts ++ event_values event.
Proof.
  unfold event_step, event_values.
  destruct event as [| | |s|l|d]; cbn [py_in py_getitem bind]; try discriminate.
  - destruct (contains (py "segs") s); [discriminate|].
    intro H. injection H as <-. now rewrite app_nil_r.
  - destruct (existsb (is_the_str (py "segs")) l); [discriminate|].
    intro H. injection H as <-. now rewrite app_nil_r.
  - destruct (lookup (py "segs") d) as [v|]; cbn [bind];
      [|intro H; injection H as <-; now rewrite app_nil_r].
    destruct v as [| | |s|segs|d']; cbn [py_iter bind]; try discriminate; intro H;
      apply for_each_seg_values in H.
    + now rewrite seg_values_chars in H.
    + exact H.
    + now rewrite seg_values_keys in H.
Qed.

Lemma for_each_event_values events : forall texts r,
  for_each event_step events texts = Returned r ->
  r = texts ++ flat_map event_values events.
Proof.
  induction events as [|ev events IH]; intros texts r; cbn [for_each flat_map].
  - intro H. injection H as <-. now rewrite app_nil_r.
  - destruct (event_step texts ev) as [texts'|] eqn:E; cbn [bind]; [|discriminate].
    apply event_step_values in E. subst texts'. intro H.
    apply IH in H. now rewrite H, app_assoc.
Qed.

Lemma event_values_keys (d : list (str * json)) :
  flat_map event_values (map (fun kv => JStr (fst kv)) d) = [].
Proof. induction d; cbn; auto. Qed.

Lemma event_values_chars (s : str) :
  flat_map event_values (map (fun c => JStr [c]) s) = [].
Proof. induction s; cbn; auto. Qed.

Lemma strings_of_strs_of l ss : strings_of l = Returned ss -> ss = strs_of l.
Proof.
  revert ss. induction l as [|v l IH]; intro ss; cbn [strings_of strs_of flat_map].
  - intro H. now injection H as <-.
  - destruct v; try discriminate.
    destruct (strings_of l) as [ss'|]; cbn [bind]; [|discriminate].
    intro H. injection H as <-. cbn [app]. f_equal. now apply IH.
Qed.

Lemma strs_of_app l1 l2 : strs_of (l1 ++ l2) = strs_of l1 ++ strs_of l2.
Proof. apply flat_map_app. Qed.

Lemma strs_of_seg_values seg : strs_of (seg_values seg) = seg_fragment seg.
Proof.
  unfold seg_values, seg_fragment. destruct seg; try reflexivity.
  destruct (lookup (py "utf8") members) as [[]|]; reflexivity.
Qed.

Lemma strs_of_segs segs :
  strs_of (flat_map seg_values segs) = flat_map seg_fragment segs.
Proof.
  induction segs as [|seg segs IH]; [reflexivity|].
  cbn [flat_map]. now rewrite strs_of_app, strs_of_seg_values, IH.
Qed.

Lemma strs_of_event_values ev : strs_of (event_values ev) = event_fragments ev.
Proof.
  unfold event_values, event_fragments. destruct ev; try reflexivity.
  destruct (lookup (py "segs") members) as [[]|]; try reflexivity.
  apply strs_of_segs.
Qed.

Lemma strs_of_events events :
  strs_of (flat_map event_values events) = flat_map event_fragments events.
Proof.
  induction events as [|ev events IH]; [reflexivity|].
  cbn [flat_map]. now rewrite strs_of_app, strs_of_event_values, IH.
Qed.

(** Whatever the body, a text that the extraction returns is the text of
    the specification. *)
Lemma full_text_sound data t :
  full_text data = Returned t -> t = transcript_text data.
Proof.
  unfold full_text, transcript_text, fragments.
  destruct data as [| | |s|l|d]; cbn [py_getitem bind]; try discriminate.
  destruct (lookup (py "events") d) as [v|]; cbn [bind]; [|discriminate].
  destruct v as [| | |s|events|d']; cbn [py_iter bind]; try discriminate.
  - destruct (for_each event_step _ []) as [texts|] eqn:E; cbn [bind]; [|discriminate].
    apply for_each_event_values in E. rewrite event_values_chars in E. subst texts.
    cbn. intro H. now injection H as <-.
  - destruct (for_each event_step events []) as [texts|] eqn:E; cbn [bind]; [|discriminate].
    apply for_each_event_values in E. cbn [app] in E. subst texts.
    destruct (strings_of _) as [ss|] eqn:S; cbn [bind]; [|discriminate].
    apply strings_of_strs_of in S. rewrite strs_of_events in S. subst ss.
    intro H. now injection H as <-.
  - destruct (for_each event_step _ []) as [texts|] eqn:E; cbn [bind]; [|discriminate].
    apply for_each_event_values in E. rewrite event_values_keys in E. subst texts.
    cbn. intro H. now injection H as <-.
Qed.

(** C3.  For a subtitle body with a top-level "events" collection, the
    text the fetcher returns is the concatenation, with single spaces
    between and surrounding whitespace trimmed, of every "utf8" field of
    every segment of every event's "segs", in order; on a body of any
    other shape the extraction either raises (and the fetcher reports a
    failure) or returns that same text; the body
    [{"events":[{"segs":[{"utf8":"hello"},{"utf8":"world"}]}]}] gives
    "hello world". *)
Theorem transcript_text_of_subtitle_body :
  forall subtitle_data : json,
    is_subtitle_body subtitle_data = true ->
    full_text subtitle_data = Returned (transcript_text subtitle_data)
    /\ (forall (X : Type) (run : subprocess X) video_id url w res w' pre c post f,
          run (subtitle_cmd video_id url) 30 w = (Returned res, w') ->
          subtitle_files video_id = pre ++ c :: post ->
          forallb (passed_over (files w')) pre = true ->
          files w' c = Some f ->
          body f = Returned subtitle_data -> removable f = true ->
          fst (fetch_transcript_ytdlp run video_id url w)
          = Returned (Success (transcript_text subtitle_data) (py "en") (py "yt-dlp")))
    /\ (forall (any_body : json) (t : str),
          full_text any_body = Returned t -> t = transcript_text any_body)
    /\ is_subtitle_body hello_world = true
    /\ transcript_text hello_world = py "hello world".
Proof.
  intros data Hd. split; [apply (full_text_subtitle_body data Hd)|].
  split; [|split; [apply full_text_sound | split; reflexivity]].
  intros X run video_id url w res w' pre c post f Hrun Hfiles Hpre Hc Hb Hr.
  rewrite (fetch_after_run run video_id url w res w' Hrun), Hfiles.
  rewrite probe_passed_over by assumption.
  now rewrite (probe_subtitle_body (files w') c f data post Hc Hb Hr Hd).
Qed.

Lemma transcript_text_hello_world :
  is_subtitle_body hello_world = true
  /\ full_text hello_world = Returned (py "hello world").
Proof.
  split; [reflexivity|].
  exact (proj1 (transcript_text_of_subtitle_body hello_world eq_refl)).
Defined.



(* ================================================================== *)
(** ** The channel enumerator *)
(* ================================================================== *)

Import Channels.

Lemma split1_first c (a b : str) :
  has_char c a = false -> split1 c (a ++ c :: b) = (a, b).
Proof.
  induction a as [|x a IH]; cbn [app split1 has_char existsb].
  - intros _. now rewrite Ascii.eqb_refl.
  - intros [Hx Ha]%orb_false_elim.
    rewrite Ascii.eqb_sym, Hx. unfold has_char in IH. now rewrite IH.
Qed.

Lemma has_char_app c (a b : str) : has_char c (a ++ b) = has_char c a || has_char c b.
Proof. apply existsb_app. Qed.

Lemma parse_line_bar (a b : str) :
  has_char "|" a = false ->
  parse_line (a ++ "|"%char :: b)
  = [ {| video_id := strip a; title := strip b; url := watch_url (strip a) |} ].
Proof.
  intro H. unfold parse_line.
  rewrite has_char_app, H. cbn [has_char existsb Ascii.eqb orb].
  change (Ascii.eqb "|" "|") with true. cbn [orb].
  now rewrite split1_first.
Qed.

Lemma parse_line_url line v :
  In v (parse_line line) -> url v = watch_url (video_id v).
Proof.
  unfold parse_line. destruct (has_char "|" line); [|contradiction].
  destruct (split1 "|" line). intros [<-|[]]. reflexivity.
Qed.

Lemma parse_line_length line :
  length (parse_line line) = if has_char "|" line then 1 else 0.
Proof.
  unfold parse_line. destruct (has_char "|" line); [|reflexivity].
  now destruct (split1 "|" line).
Qed.

Lemma flat_map_parse_length lines :
  length (flat_map parse_line lines) = length (filter (has_char "|") lines).
Proof.
  induction lines as [|l lines IH]; [reflexivity|].
  cbn [flat_map filter]. rewrite length_app, parse_line_length, IH.
  now destruct (has_char "|" l).
Qed.

Lemma enumerator_after_run {X : Type} (run : subprocess X) channel_url max_videos w res w' :
  run (listing_cmd channel_url max_videos) 120 w = (Returned res, w') ->
  fst (fetch_channel_videos run channel_url max_videos w)
  = Returned (if Z.eqb (returncode res) 0
              then Success (parse_stdout (stdout res))
              else Failure (Text (stderr res))).
Proof.
  intro H. unfold fetch_channel_videos, fetch_channel_videos_try. rewrite H.
  now destruct (Z.eqb (returncode res) 0).
Qed.

Lemma enumerator_returns {X : Type} (run : subprocess X) channel_url max_videos w :
  exists r, fst (fetch_channel_videos run channel_url max_videos w) = Returned r.
Proof.
  unfold fetch_channel_videos, fetch_channel_videos_try.
  destruct (run (listing_cmd channel_url max_videos) 120 w) as [[res|e] w'].
  - destruct (negb _); cbn; eauto.
  - destruct e; cbn; eauto.
Qed.

(** C5.  For every stdout of the listing tool, each line that holds a '|'
    is split at the first one into an id and a title, lines without '|'
    are skipped, and each record's URL is
    https://www.youtube.com/watch?v=<id>.  The stdout
    "abc123|My Title\ndef456|Other\n" yields exactly two records, with the
    URLs for abc123 and def456. *)
Theorem enumerator_parses_id_title_lines :
  forall out : str,
    parse_stdout out = flat_map parse_line (split "010"%char (strip out))
    /\ (forall line, has_char "|" line = false -> parse_line line = [])
    /\ (forall a b, has_char "|" a = false ->
          parse_line (a ++ "|"%char :: b)
          = [ {| video_id := strip a; title := strip b;
                 url := py "https://www.youtube.com/watch?v=" ++ strip a |} ])
    /\ (forall v, In v (parse_stdout out) ->
          url v = py "https://www.youtube.com/watch?v=" ++ video_id v)
    /\ length (parse_stdout out)
       = length (filter (has_char "|") (split "010"%char (strip out)))
    /\ (forall (X : Type) (run : subprocess X) channel_url max_videos w w' err,
          run (listing_cmd channel_url max_videos) 120 w
          = (Returned {| returncode := 0%Z; stdout := out; stderr := err |}, w') ->
          fst (fetch_channel_videos run channel_url max_videos w)
          = Returned (Success (parse_stdout out)))
    /\ map (fun v => (video_id v, title v, url v)) (parse_stdout two_lines)
       = [ (py "abc123", py "My Title", py "https://www.youtube.com/watch?v=abc123");
           (py "def456", py "Other", py "https://www.youtube.com/watch?v=def456") ].
Proof.
  intro out. split; [reflexivity|].
  split; [intros line H; unfold parse_line; now rewrite H|].
  split; [apply parse_line_bar|].
  split.
  { intros v Hv. unfold parse_stdout in Hv.
    apply in_flat_map in Hv as (line & _ & Hv). now apply (parse_line_url line). }
  split; [apply flat_map_parse_length|].
  split; [|reflexivity].
  intros X run channel_url max_videos w w' err H.
  now rewrite (enumerator_after_run run channel_url max_videos w _ w' H).
Qed.

(** C6.  When the listing process exits with a non-zero code, the
    enumerator returns a failure that carries the process's stderr text
    as it is; when the wait elapses it returns the failure "Timeout"; and
    in every case it returns a result: no exception leaves it. *)
Theorem enumerator_failure_and_timeout :
  forall (X : Type) (run : subprocess X) (channel_url : str)
         (max_videos : option nat) (w : world X),
    (forall res w',
        run (listing_cmd channel_url max_videos) 120 w = (Returned res, w') ->
        returncode res <> 0%Z ->
        fst (fetch_channel_videos run channel_url max_videos w)
        = Returned (Failure (Text (stderr res))))
    /\ (forall w',
          run (listing_cmd channel_url max_videos) 120 w = (Raised TimeoutExpired, w') ->
          fst (fetch_channel_videos run channel_url max_videos w)
          = Returned (Failure (Text (py "Timeout"))))
    /\ (exists r, fst (fetch_channel_videos run channel_url max_videos w) = Returned r).
Proof.
  intros X run channel_url max_videos w. split; [|split].
  - intros res w' H Hrc.
    rewrite (enumerator_after_run run channel_url max_videos w res w' H).
    apply Z.eqb_neq in Hrc. now rewrite Hrc.
  - intros w' H. unfold fetch_channel_videos, fetch_channel_videos_try. now rewrite H.
  - apply enumerator_returns.
Qed.

Lemma enumerator_failure_witness :
  fst (fetch_channel_videos failing_tool (py "https://www.youtube.com/@nobody") None no_files)
  = Returned (Failure (Text (py "ERROR: channel not found")))
  /\ fst (fetch_channel_videos slow_tool (py "https://www.youtube.com/@nobody") (Some 5) no_files)
     = Returned (Failure (Text (py "Timeout"))).
Proof.
  split.
  - refine (proj1 (enumerator_failure_and_timeout unit failing_tool _ None no_files)
              _ _ eq_refl _).
    cbn. discriminate.
  - exact (proj1 (proj2 (enumerator_failure_and_timeout unit slow_tool _ (Some 5) no_files))
             _ eq_refl).
Defined.

Lemma enumerator_parses_witness :
  parse_line (py "abc123|My Title|part 2")
  = [ {| video_id := py "abc123"; title := py "My Title|part 2";
         url := py "https://www.youtube.com/watch?v=abc123" |} ]
  /\ parse_line (py "WARNING: no separator here") = [].
Proof.
  split.
  - exact (proj1 (proj2 (proj2 (enumerator_parses_id_title_lines two_lines)))
             (py "abc123") (py "My Title|part 2") eq_refl).
  - exact (proj1 (proj2 (enumerator_parses_id_title_lines two_lines))
             (py "WARNING: no separator here") eq_refl).
Defined.
(* ================================================================== *)
(** ** The batch runner *)
(* ================================================================== *)

Section RunnerFacts.
Context {X : Type}.
Variable run : subprocess X.
Variable output_dir : str.
Variable delay : nat.

Lemma sleeps_emit ev (st : state X) :
  sleeps (emit ev st) = sleeps st + (if is_sleep ev then 1 else 0).
Proof.
  unfold sleeps, emit. cbn [trace]. rewrite filter_app, length_app. cbn [filter].
  now destruct (is_sleep ev).
Qed.

(** What one item does to the counts. *)
Lemma process_item_counts total i url (st : state X) :
  exists st',
    process_item run output_dir delay total i url st = (Returned tt, st')
    /\ sleeps st' = sleeps st + (if resolvable url && (i <? total) then 1 else 0)
    /\ success_count st' + length (failed st')
       = success_count st + length (failed st) + 1.
Proof.
  unfold process_item, resolvable.
  destruct (falsy (extract_video_id url)); cbn [negb andb].
  - eexists. split; [reflexivity|]. split.
    + unfold sleeps. cbn. rewrite filter_app, length_app. cbn. lia.
    + cbn. rewrite length_app. cbn. lia.
  - set (id := match extract_video_id url with Some v => v | None => [] end).
    set (st1 := emit (EvPrint (MsgFetching i total id)) st).
    destruct (fetch_returns run id url (st_world st1)) as [r Hr].
    destruct (fetch_transcript_ytdlp run id url (st_world st1)) as [o w'].
    cbn [fst] in Hr. subst o.
    eexists. split; [reflexivity|].
    assert (S1 : sleeps st1 = sleeps st)
      by (unfold st1; rewrite sleeps_emit; cbn; lia).
    destruct r as [text language method|error]; destruct (i <? total); split;
      rewrite ?sleeps_emit; unfold sleeps in *; cbn in *;
      rewrite ?filter_app, ?length_app in *; cbn in *; lia.
Qed.

Lemma loop_counts urls : forall total i (st : state X),
  i + length urls = S total ->
  exists st',
    loop run output_dir delay total i urls st = (Returned tt, st')
    /\ sleeps st' = sleeps st + length (filter resolvable (removelast urls))
    /\ success_count st' + length (failed st')
       = success_count st + length (failed st) + length urls.
Proof.
  induction urls as [|url rest IH]; intros total i st Hi.
  - exists st. cbn. repeat split; lia.
  - cbn [loop].
    destruct (process_item_counts total i url st) as (st1 & -> & S1 & C1).
    destruct (IH total (S i) st1) as (st2 & -> & S2 & C2);
      [cbn [length] in Hi; lia|].
    exists st2. split; [reflexivity|]. split.
    + rewrite S2, S1. cbn [length] in Hi.
      destruct rest as [|url' rest'].
      * cbn [removelast filter length].
        replace (i <? total) with false by (symmetry; apply Nat.ltb_ge; cbn in Hi; lia).
        rewrite Bool.andb_false_r. lia.
      * change (removelast (url :: url' :: rest'))
          with (url :: removelast (url' :: rest')).
        cbn [filter].
        replace (i <? total) with true
          by (symmetry; apply Nat.ltb_lt; cbn [length] in Hi; lia).
        rewrite Bool.andb_true_r. destruct (resolvable url); cbn [length]; lia.
    + cbn [length]. lia.
Qed.

Lemma finish_counts total (st : state X) :
  let st' := snd (finish output_dir total st) in
  sleeps st' = sleeps st /\ success_count st' = success_count st
  /\ failed st' = failed st
  /\ fst (finish output_dir total st)
     = match total with 0 => Raised ZeroDivisionError | S _ => Returned tt end.
Proof.
  unfold finish.
  destruct total; destruct (failed st) eqn:F; cbn;
    rewrite ?F; unfold sleeps; cbn; rewrite ?filter_app, ?length_app; cbn;
    repeat split; try lia; try now rewrite ?F.
Qed.

Lemma process_videos_counts lines w :
  let urls := read_urls lines in
  let st := snd (process_videos run output_dir delay lines w) in
  sleeps st = length (filter resolvable (removelast urls))
  /\ success_count st + length (failed st) = length urls
  /\ fst (process_videos run output_dir delay lines w)
     = match urls with [] => Raised ZeroDivisionError | _ :: _ => Returned tt end.
Proof.
  intros urls st. unfold st, process_videos. fold urls.
  set (st0 := {| st_world := w; success_count := 0; failed := []; trace := _ |}).
  destruct (loop_counts urls (length urls) 1 st0) as (st1 & -> & S1 & C1); [lia|].
  destruct (finish_counts (length urls) st1) as (S2 & C2 & F2 & R2).
  rewrite S2, C2, F2, R2, S1, C1.
  split; [|split]; now destruct urls.
Qed.
End RunnerFacts.





(* ================================================================== *)
(** ** The URL extractors *)
(* ================================================================== *)

Import UrlExtractor.

(** [re.finditer] reports positions of the text, from left to right. *)
Lemma finditer_from_positions r s : forall prev pos skip,
  StronglySorted lt (map fst (finditer_from r prev pos skip s))
  /\ Forall (fun p => pos <= p < pos + length s) (map fst (finditer_from r prev pos skip s)).
Proof.
  induction s as [|c s IH]; intros prev pos skip; cbn [finditer_from].
  - split; constructor.
  - assert (Hrec : forall skip',
               StronglySorted lt (map fst (finditer_from r (Some c) (S pos) skip' s))
               /\ Forall (fun p => pos < p < pos + length (c :: s))
                         (map fst (finditer_from r (Some c) (S pos) skip' s))).
    { intro skip'. destruct (IH (Some c) (S pos) skip') as [S1 F1].
      split; [exact S1|]. eapply Forall_impl; [|exact F1]. cbn. intros; lia. }
    assert (Hweak : forall l, Forall (fun p => pos < p < pos + length (c :: s)) l ->
                              Forall (fun p => pos <= p < pos + length (c :: s)) l).
    { intros l. apply Forall_impl. intros; lia. }
    destruct skip as [|k].
    + destruct (match_here r prev (c :: s)) as [w|].
      * destruct (Hrec (length w - 1)) as [S1 F1]. cbn [map fst]. split.
        -- constructor; [exact S1|]. eapply Forall_impl; [|exact F1]. cbn. intros; lia.
        -- constructor; [cbn; lia | now apply Hweak].
      * destruct (Hrec 0) as [S1 F1]. split; [exact S1 | now apply Hweak].
    + destruct (Hrec k) as [S1 F1]. split; [exact S1 | now apply Hweak].
Qed.

Lemma finditer_sorted r s : StronglySorted lt (map fst (finditer r s)).
Proof. apply finditer_from_positions. Qed.

Lemma finditer_bound r s : Forall (fun p => p < length s) (map fst (finditer r s)).
Proof.
  destruct (finditer_from_positions r s None 0 0) as [_ F].
  eapply Forall_impl; [|exact F]. cbn. intros; lia.
Qed.

Lemma mem_true_iff x l : mem x l = true <-> In x l.
Proof.
  unfold mem. rewrite existsb_exists. split.
  - intros (y & Hy & E). apply str_eqb_eq in E. now subst.
  - intro H. exists x. split; [exact H | apply str_eqb_refl].
Qed.

Lemma mem_false_iff x l : mem x l = false <-> ~ In x l.
Proof. rewrite <- mem_true_iff. now destruct (mem x l). Qed.

Section Dedup.
Variable clean : str -> str.

Lemma fold_dedup ms : forall seen acc,
  snd (fold_left (dedup_step clean) (map snd ms) (seen, acc))
  = acc ++ map snd (kept clean seen ms).
Proof.
  induction ms as [|[p w] ms IH]; intros seen acc; cbn [map snd fold_left kept].
  - now rewrite app_nil_r.
  - unfold dedup_step at 2. destruct (mem (clean w) seen).
    + apply IH.
    + rewrite IH. cbn [map snd]. now rewrite <- app_assoc.
Qed.

Lemma dedup_kept ms : dedup clean (map snd ms) = map snd (kept clean [] ms).
Proof. unfold dedup. now rewrite fold_dedup. Qed.

Lemma kept_not_seen ms : forall seen p u,
  In (p, u) (kept clean seen ms) -> ~ In u seen.
Proof.
  induction ms as [|[p0 w0] ms IH]; intros seen p u; cbn [kept]; [contradiction|].
  destruct (mem (clean w0) seen) eqn:E; [apply IH|].
  intros [H|H].
  - injection H as _ <-. now apply mem_false_iff.
  - apply IH in H. intro Hu. apply H. now right.
Qed.

Lemma kept_from ms : forall seen p u,
  In (p, u) (kept clean seen ms) -> exists w, In (p, w) ms /\ clean w = u.
Proof.
  induction ms as [|[p0 w0] ms IH]; intros seen p u; cbn [kept]; [contradiction|].
  destruct (mem (clean w0) seen).
  - intro H. destruct (IH _ _ _ H) as (w & Hw & E). exists w. split; [now right | exact E].
  - intros [H|H].
    + injection H as <- <-. exists w0. split; [now left | reflexivity].
    + destruct (IH _ _ _ H) as (w & Hw & E). exists w. split; [now right | exact E].
Qed.

Lemma kept_all ms : forall seen p w,
  In (p, w) ms -> ~ In (clean w) seen ->
  In (clean w) (map snd (kept clean seen ms)).
Proof.
  induction ms as [|[p0 w0] ms IH]; intros seen p w; cbn [kept]; [contradiction|].
  intros [H|H] Hs.
  - injection H as -> ->. apply mem_false_iff in Hs. rewrite Hs. now left.
  - destruct (mem (clean w0) seen) eqn:E; [now apply (IH seen p w)|].
    cbn [map snd].
    destruct (list_eq_dec ascii_dec (clean w0) (clean w)) as [E2|N]; [now left|].
    right. apply (IH _ p w H). intros [H2|H2]; auto.
Qed.

Lemma kept_nodup ms : forall seen, NoDup (map snd (kept clean seen ms)).
Proof.
  induction ms as [|[p0 w0] ms IH]; intro seen; cbn [kept]; [constructor|].
  destruct (mem (clean w0) seen); [apply IH|].
  cbn [map snd]. constructor; [|apply IH].
  rewrite in_map_iff. intros ([p u] & E & H). cbn in E. subst u.
  apply kept_not_seen in H. apply H. now left.
Qed.

Lemma kept_positions ms : forall seen p u,
  In (p, u) (kept clean seen ms) -> In p (map fst ms).
Proof.
  intros seen p u H. destruct (kept_from _ _ _ _ H) as (w & Hw & _).
  apply in_map_iff. now exists (p, w).
Qed.

Lemma kept_sorted ms : forall seen,
  StronglySorted lt (map fst ms) ->
  StronglySorted lt (map fst (kept clean seen ms)).
Proof.
  induction ms as [|[p0 w0] ms IH]; intros seen S; cbn [kept]; [constructor|].
  cbn [map fst] in S. inversion S as [|? ? S' F]; subst.
  destruct (mem (clean w0) seen); [now apply IH|].
  cbn [map fst]. constructor; [now apply IH|].
  rewrite Forall_forall in *. intros p Hp.
  apply in_map_iff in Hp as ([p' u] & E & Hp). cbn in E. subst p'.
  apply F. eapply kept_positions; eauto.
Qed.

Lemma first_pos_in ms u q :
  first_pos clean ms u = Some q -> In q (map fst ms).
Proof.
  revert q. induction ms as [|[p w] ms IH]; intro q; cbn [first_pos map fst];
    [discriminate|].
  destruct (str_eqb (clean w) u).
  - destruct (first_pos clean ms u) as [q'|]; intro H; injection H as <-.
    + destruct (Nat.min_dec p q') as [->| ->]; [now left | right; now apply IH].
    + now left.
  - intro H. right. now apply IH.
Qed.

Lemma kept_first_pos ms : forall seen p u,
  StronglySorted lt (map fst ms) ->
  In (p, u) (kept clean seen ms) -> first_pos clean ms u = Some p.
Proof.
  induction ms as [|[p0 w0] ms IH]; intros seen p u S; cbn [kept first_pos];
    [contradiction|].
  cbn [map fst] in S. inversion S as [|? ? S' F]; subst.
  rewrite Forall_forall in F.
  destruct (mem (clean w0) seen) eqn:E.
  - intro H. pose proof (kept_not_seen _ _ _ _ H) as N.
    apply mem_true_iff in E.
    replace (str_eqb (clean w0) u) with false
      by (symmetry; apply str_eqb_neq; congruence).
    now apply (IH seen).
  - intros [H|H].
    + injection H as <- <-. rewrite str_eqb_refl.
      destruct (first_pos clean ms (clean w0)) as [q|] eqn:Q; [|reflexivity].
      apply first_pos_in, F in Q. f_equal. lia.
    + pose proof (kept_not_seen _ _ _ _ H) as N.
      replace (str_eqb (clean w0) u) with false
        by (symmetry; apply str_eqb_neq; intro; apply N; now left).
      now apply (IH (clean w0 :: seen)).
Qed.

Lemma sorted_nth (l : list nat) : forall i j a b,
  StronglySorted lt l -> i < j ->
  nth_error l i = Some a -> nth_error l j = Some b -> a < b.
Proof.
  induction l as [|x l IH]; intros i j a b S Hij Ha Hb; [now destruct i|].
  inversion S as [|? ? S' F]; subst. rewrite Forall_forall in F.
  destruct j as [|j]; [lia|]. cbn in Hb.
  destruct i as [|i].
  - cbn in Ha. injection Ha as <-. apply F. eapply nth_error_In; eauto.
  - cbn in Ha. apply (IH i j); auto. lia.
Qed.

(** A loop that removes duplicates from matches given from left to
    right keeps each cleaned match once, in the order of first
    positions. *)
Lemma dedup_first_occurrence ms :
  StronglySorted lt (map fst ms) ->
  let out := dedup clean (map snd ms) in
  NoDup out
  /\ (forall u, In u out <-> In u (map (fun m => clean (snd m)) ms))
  /\ in_first_occurrence_order clean ms out.
Proof.
  intros S out. unfold out. rewrite dedup_kept. split; [apply kept_nodup|]. split.
  - intro u. split.
    + rewrite !in_map_iff. intros ([p u'] & E & H). cbn in E. subst u'.
      destruct (kept_from _ _ _ _ H) as (w & Hw & E). now exists (p, w).
    + rewrite in_map_iff. intros ([p w] & E & H). cbn in E. subst u.
      apply (kept_all ms [] p w H). intros [].
  - intros i j u v Hij Hu Hv.
    rewrite nth_error_map in Hu, Hv.
    destruct (nth_error (kept clean [] ms) i) as [[p u']|] eqn:Ei; [|discriminate].
    destruct (nth_error (kept clean [] ms) j) as [[q v']|] eqn:Ej; [|discriminate].
    cbn in Hu, Hv. injection Hu as ->. injection Hv as ->.
    exists p, q. split; [|split].
    + apply (kept_first_pos ms [] p u S). eapply nth_error_In; eauto.
    + apply (kept_first_pos ms [] q v S). eapply nth_error_In; eauto.
    + apply (sorted_nth (map fst (kept clean [] ms)) i j).
      * now apply kept_sorted.
      * exact Hij.
      * now rewrite nth_error_map, Ei.
      * now rewrite nth_error_map, Ej.
Qed.
End Dedup.

Lemma strongly_sorted_app (l1 l2 : list nat) :
  StronglySorted lt l1 -> StronglySorted lt l2 ->
  (forall a b, In a l1 -> In b l2 -> a < b) ->
  StronglySorted lt (l1 ++ l2).
Proof.
  induction 1 as [|x l1 S1 IH F]; intros S2 H; cbn [app]; [exact S2|].
  constructor.
  - apply IH; [exact S2|]. intros a b Ha Hb. apply H; [now right | exact Hb].
  - apply Forall_app. split; [exact F|].
    apply Forall_forall. intros b Hb. apply H; [now left | exact Hb].
Qed.

Lemma ranked_video_matches_sorted content :
  StronglySorted lt (map fst (ranked_video_matches content)).
Proof.
  unfold ranked_video_matches. rewrite map_app, map_map. cbn [fst].
  pose proof (finditer_bound watch_pattern content) as B.
  rewrite Forall_forall in B.
  apply strongly_sorted_app.
  - apply finditer_sorted.
  - pose proof (finditer_sorted shorts_pattern content) as S.
    induction (finditer shorts_pattern content) as [|[p w] l IH]; [constructor|].
    cbn [map fst] in *. inversion S as [|? ? S' F]; subst.
    constructor; [now apply IH|].
    rewrite Forall_forall in *. intros q Hq.
    apply in_map_iff in Hq as (m & <- & Hm).
    assert (p < fst m) by (apply F, in_map_iff; now exists m). lia.
  - intros a b Ha Hb. apply B in Ha.
    apply in_map_iff in Hb as (m & <- & _). lia.
Qed.

Lemma video_urls_ranked content :
  video_urls content = map snd (ranked_video_matches content).
Proof.
  unfold video_urls, ranked_video_matches, youtube_patterns, findall.
  cbn [flat_map]. now rewrite app_nil_r, map_app, map_map.
Qed.

(** C8, as stated, does not hold for the extractor of video URLs: its
    output is not in the order of first occurrence in the text.  A shorts
    URL that stands before a watch URL in the text comes after it in the
    output. *)
Lemma video_urls_not_in_text_order :
  ~ (forall content : str,
        let out := extract_youtube_videos content in
        NoDup out
        /\ in_first_occurrence_order clean_video_url (video_matches content) out).
Proof.
  intro H. destruct (H shorts_then_watch) as [_ O].
  destruct (O 0 1 (py "https://www.youtube.com/watch?v=xyz")
              (py "https://youtube.com/shorts/abc"))
    as (p & q & Hp & Hq & Hlt); [lia | reflexivity | reflexivity |].
  vm_compute in Hp, Hq. injection Hp as <-. injection Hq as <-. lia.
Qed.

(** C8, amended.  For every input text the output of each extractor has
    no duplicate and holds exactly the normalized matches.  The channel
    extractor lists them in the order of their first occurrence in the
    text.  The video extractor lists the watch URLs, in the order of
    their first occurrence, before the shorts URLs, in the order of
    theirs. *)
Theorem extractors_unique_in_order :
  forall content : str,
    (let out := Channels.extract_channel_urls content in
     NoDup out
     /\ (forall u, In u out
                   <-> In u (map (rstrip_char "/") (findall Channels.channel_pattern content)))
     /\ in_first_occurrence_order (rstrip_char "/")
          (finditer Channels.channel_pattern content) out)
    /\ (let out := extract_youtube_videos content in
        NoDup out
        /\ (forall u, In u out <-> In u (map clean_video_url (video_urls content)))
        /\ in_first_occurrence_order clean_video_url (ranked_video_matches content) out)
    /\ extract_youtube_videos shorts_then_watch
       = [ py "https://www.youtube.com/watch?v=xyz"; py "https://youtube.com/shorts/abc" ].
Proof.
  intro content. split; [|split; [|reflexivity]].
  - unfold Channels.extract_channel_urls, findall.
    destruct (dedup_first_occurrence (rstrip_char "/")
                (finditer Channels.channel_pattern content)
                (finditer_sorted _ _)) as (N & M & O).
    split; [exact N|]. split; [|exact O].
    intro u. rewrite M, map_map. reflexivity.
  - unfold extract_youtube_videos. rewrite video_urls_ranked.
    destruct (dedup_first_occurrence clean_video_url (ranked_video_matches content)
                (ranked_video_matches_sorted content)) as (N & M & O).
    split; [exact N|]. split; [|exact O].
    intro u. rewrite M, map_map. reflexivity.
Qed.
(* ================================================================== *)
(** ** Patterns made of a literal and a class *)
(* ================================================================== *)

Lemma startswith_app (p s : str) : startswith p (p ++ s) = true.
Proof. induction p as [|c p IH]; cbn; [reflexivity|]. now rewrite Ascii.eqb_refl. Qed.

Lemma startswith_split (p s : str) :
  startswith p s = true -> s = p ++ skipn (length p) s.
Proof.
  revert s. induction p as [|c p IH]; intros [|x s]; cbn; try discriminate; auto.
  intros [E H]%andb_prop. apply Ascii.eqb_eq in E. subst. f_equal. now apply IH.
Qed.

Lemma run_lit (p : str) : forall prev s,
  run (lit p) prev s = if startswith p s then [(p, skipn (length p) s)] else [].
Proof.
  induction p as [|c p IH]; intros prev s; [reflexivity|].
  change (lit (c :: p)) with (Cat (Chr c) (lit p)).
  destruct s as [|x s]; [reflexivity|].
  cbn [run flat_map startswith length skipn].
  rewrite (Ascii.eqb_sym c x).
  destruct (Ascii.eqb x c) eqn:E; [|reflexivity].
  apply Ascii.eqb_eq in E. subst x.
  cbn [flat_map andb]. rewrite IH, app_nil_r.
  destruct (startswith p s); reflexivity.
Qed.

Lemma plus_runs_head p s :
  hd_error (plus_runs p s)
  = match take_while p s with
    | [] => None
    | _ :: _ => Some (take_while p s, drop_while p s)
    end.
Proof.
  induction s as [|c s IH]; [reflexivity|].
  cbn [plus_runs take_while drop_while].
  destruct (p c); [|reflexivity].
  destruct (plus_runs p s) as [|[w t] l]; cbn [map app hd_error] in *.
  - destruct (take_while p s) eqn:T; [|discriminate].
    f_equal. f_equal.
    clear IH. destruct s as [|x s]; [reflexivity|].
    cbn in T |- *. destruct (p x); [discriminate | reflexivity].
  - destruct (take_while p s); [discriminate|]. now injection IH as -> ->.
Qed.

(** A literal followed by a greedy class: the match at a position. *)
Lemma match_here_lit_class (prefix : str) (cls : ascii -> bool) prev s :
  match_here (Cat (lit prefix) (ClsPlus cls)) prev s
  = if startswith prefix s
    then match take_while cls (skipn (length prefix) s) with
         | [] => None
         | _ :: _ => Some (prefix ++ take_while cls (skipn (length prefix) s))
         end
    else None.
Proof.
  unfold match_here.
  change (run (Cat (lit prefix) (ClsPlus cls)) prev s)
    with (flat_map (fun '(w1, s1) =>
                      map (fun '(w2, s2) => (w1 ++ w2, s2))
                          (plus_runs cls s1))
                   (run (lit prefix) prev s)).
  rewrite run_lit. destruct (startswith prefix s); [|reflexivity].
  cbn [flat_map]. rewrite app_nil_r.
  pose proof (plus_runs_head cls (skipn (length prefix) s)) as H.
  destruct (plus_runs cls (skipn (length prefix) s)) as [|[w t] l]; cbn [map hd_error] in *.
  - destruct (take_while cls _); [reflexivity | discriminate].
  - destruct (take_while cls _); [discriminate|]. now injection H as -> _.
Qed.

Lemma finditer_from_matches r s : forall prev pos skip p w,
  In (p, w) (finditer_from r prev pos skip s) ->
  exists prev' s', match_here r prev' s' = Some w.
Proof.
  induction s as [|c s IH]; intros prev pos skip p w; cbn [finditer_from]; [contradiction|].
  destruct skip as [|k]; [|apply IH].
  destruct (match_here r prev (c :: s)) as [w0|] eqn:E; [|apply IH].
  intros [H|H]; [|now apply IH in H].
  injection H as _ <-. eauto.
Qed.

Lemma search_matches r s w :
  search r s = Some w -> exists prev' s', match_here r prev' s' = Some w.
Proof.
  unfold search, findall, finditer.
  destruct (finditer_from r None 0 0 s) as [|[p w0] l] eqn:E; cbn; [discriminate|].
  intro H. injection H as <-.
  apply (finditer_from_matches r s None 0 0 p w0). rewrite E. now left.
Qed.

Lemma take_while_all p s : forallb p (take_while p s) = true.
Proof. induction s as [|c s IH]; cbn; [reflexivity|]. destruct (p c) eqn:E; cbn; [now rewrite E|reflexivity]. Qed.

Lemma take_while_app p a b :
  forallb p a = true -> hd_error b = None \/ (exists c, hd_error b = Some c /\ p c = false) ->
  take_while p (a ++ b) = a.
Proof.
  induction a as [|x a IH]; cbn [app take_while forallb].
  - intros _ [H|(c & H & Hc)]; destruct b; cbn in *; try discriminate; auto.
    injection H as <-. now rewrite Hc.
  - intros [-> Ha]%andb_prop Hb. f_equal. now apply IH.
Qed.
(* ================================================================== *)
(** ** Video ids *)
(* ================================================================== *)

Lemma not_amp_has_char (s : str) : forallb not_amp s = true -> has_char "&" s = false.
Proof.
  unfold has_char.
  induction s as [|c s IH]; cbn [forallb existsb]; [reflexivity|].
  unfold not_amp at 1. intros [H1 H2]%andb_prop.
  apply negb_true_iff in H1. rewrite Ascii.eqb_sym, H1. now apply IH.
Qed.

Lemma has_char_not_amp (s : str) : has_char "&" s = false -> forallb not_amp s = true.
Proof.
  unfold has_char.
  induction s as [|c s IH]; cbn [forallb existsb]; [reflexivity|].
  intros [H1 H2]%orb_false_elim. unfold not_amp at 1.
  rewrite Ascii.eqb_sym, H1. now apply IH.
Qed.

Lemma search_group_shape prefix cls url g :
  search_group (prefix, cls) url = Some g ->
  g <> [] /\ forallb cls g = true.
Proof.
  unfold search_group.
  destruct (search (Cat (lit prefix) (ClsPlus cls)) url) as [w|] eqn:E; [|discriminate].
  cbn. intro H. injection H as <-.
  apply search_matches in E as (prev & s & E).
  rewrite match_here_lit_class in E.
  destruct (startswith prefix s); [|discriminate].
  destruct (take_while cls (skipn (length prefix) s)) as [|c t] eqn:T; [discriminate|].
  injection E as <-.
  rewrite skipn_app, skipn_all, Nat.sub_diag. cbn [app skipn].
  split; [discriminate|]. rewrite <- T. apply take_while_all.
Qed.

Lemma extract_video_id_shape url id :
  extract_video_id url = Some id -> id <> [] /\ has_char "&" id = false.
Proof.
  unfold extract_video_id, patterns. cbn [first_group].
  destruct (search_group (py "youtube.com/watch?v=", not_amp) url) as [g|] eqn:E1.
  - intro H. injection H as <-.
    apply search_group_shape in E1 as [N F]. split; [exact N | now apply not_amp_has_char].
  - destruct (search_group (py "youtube.com/shorts/", not_amp_qm) url) as [g|] eqn:E2;
      [|discriminate].
    intro H. injection H as <-.
    apply search_group_shape in E2 as [N F]. split; [exact N|].
    apply not_amp_has_char. rewrite forallb_forall in *. intros c Hc.
    specialize (F c Hc). unfold not_amp_qm in F. now apply andb_prop in F as [F _].
Qed.

Lemma search_head_step r prev pos c s :
  hd_error (map snd (finditer_from r prev pos 0 (c :: s)))
  = match match_here r prev (c :: s) with
    | Some w => Some w
    | None => hd_error (map snd (finditer_from r (Some c) (S pos) 0 s))
    end.
Proof. cbn [finditer_from]. now destruct (match_here r prev (c :: s)). Qed.

Ltac search_step :=
  rewrite search_head_step, match_here_lit_class;
  match goal with
  | |- context [startswith ?p ?s] =>
      let b := eval lazy in (startswith p s) in
      change (startswith p s) with b
  end; cbv iota.

Lemma search_watch_url id tail :
  id <> [] -> has_char "&" id = false ->
  tail = [] \/ hd_error tail = Some "&"%char ->
  search (Cat (lit (py "youtube.com/watch?v=")) (ClsPlus not_amp)) (watch_url id ++ tail)
  = Some (py "youtube.com/watch?v=" ++ id).
Proof.
  intros N A T.
  assert (TW : take_while not_amp (id ++ tail) = id).
  { apply take_while_app; [now apply has_char_not_amp|].
    destruct T as [->|T]; [now left|]. right. exists "&"%char. split; [exact T | reflexivity]. }
  unfold search, findall, finditer, watch_url.
  rewrite <- app_assoc.
  change (py "https://www.youtube.com/watch?v=" ++ id ++ tail)
    with ("h" :: "t" :: "t" :: "p" :: "s" :: ":" :: "/" :: "/" :: "w" :: "w" :: "w" :: "."
          :: py "youtube.com/watch?v=" ++ id ++ tail)%char.
  do 12 search_step.
  change (py "youtube.com/watch?v=" ++ id ++ tail)
    with ("y"%char :: py "outube.com/watch?v=" ++ id ++ tail).
  rewrite search_head_step, match_here_lit_class.
  change ("y"%char :: py "outube.com/watch?v=" ++ id ++ tail)
    with (py "youtube.com/watch?v=" ++ (id ++ tail)).
  rewrite startswith_app, skipn_app, skipn_all, Nat.sub_diag. cbn [app skipn].
  rewrite TW. destruct id as [|x id']; [contradiction | reflexivity].
Qed.

Lemma watch_url_id id tail :
  id <> [] -> has_char "&" id = false ->
  tail = [] \/ hd_error tail = Some "&"%char ->
  extract_video_id (watch_url id ++ tail) = Some id.
Proof.
  intros N A T.
  unfold extract_video_id, patterns. cbn [first_group]. unfold search_group.
  rewrite (search_watch_url id tail N A T). cbn [option_map].
  now rewrite skipn_app, skipn_all, Nat.sub_diag.
Qed.

(** X1.  A video id that [extract_video_id] returns is never empty and
    never holds '&'; so the batch runner rejects a URL as invalid exactly
    when neither pattern matches it. *)
Theorem video_id_nonempty_without_ampersand :
  forall url : str,
    (forall id, extract_video_id url = Some id -> id <> [] /\ has_char "&" id = false)
    /\ (falsy (extract_video_id url) = true <-> extract_video_id url = None).
Proof.
  intro url. split; [apply extract_video_id_shape|].
  destruct (extract_video_id url) as [id|] eqn:E; cbn; [|tauto].
  apply extract_video_id_shape in E as [N _].
  destruct id; [contradiction|]. split; discriminate.
Qed.

(** X2.  The URL that the enumerator derives from an id leads the
    fetcher back to that id: for a non-empty id without '&',
    [extract_video_id] of the watch URL, also when followed by further
    '&' parameters, is the id; so every record parsed from the listing
    tool with such an id is accepted by the batch runner. *)
Theorem watch_url_leads_back_to_id :
  forall id tail : str,
    id <> [] -> has_char "&" id = false ->
    tail = [] \/ hd_error tail = Some "&"%char ->
    extract_video_id (watch_url id ++ tail) = Some id
    /\ (forall out v, In v (parse_stdout out) -> Channels.video_id v = id ->
          extract_video_id (Channels.url v) = Some id
          /\ resolvable (Channels.url v) = true).
Proof.
  intros id tail N A T. split; [now apply watch_url_id|].
  intros out v Hv E.
  assert (U : Channels.url v = watch_url id ++ []).
  { rewrite app_nil_r, <- E. unfold parse_stdout in Hv.
    apply in_flat_map in Hv as (line & _ & Hv). now apply (parse_line_url line). }
  unfold resolvable. rewrite U, (watch_url_id id [] N A (or_introl eq_refl)).
  split; [reflexivity|]. destruct id; [contradiction | reflexivity].
Qed.

Lemma watch_url_leads_back_witness :
  extract_video_id (py "https://www.youtube.com/watch?v=abc123&t=42s") = Some (py "abc123").
Proof.
  refine (proj1 (watch_url_leads_back_to_id (py "abc123") (py "&t=42s") _ eq_refl
                   (or_intror eq_refl))).
  discriminate.
Defined.
(* ================================================================== *)
(** ** What the enumerator's records can hold *)
(* ================================================================== *)

Lemma lstrip_hd p (s : str) :
  match lstrip_by p s with c :: _ => p c = false | [] => True end.
Proof.
  induction s as [|c s IH]; cbn [lstrip_by]; [exact I|].
  destruct (p c) eqn:E; [exact IH | exact E].
Qed.

Lemma lstrip_fixed p (s : str) :
  match s with c :: _ => p c = false | [] => True end -> lstrip_by p s = s.
Proof. destruct s as [|c s]; cbn; [reflexivity|]. now intros ->. Qed.

Lemma lstrip_idem p (s : str) : lstrip_by p (lstrip_by p s) = lstrip_by p s.
Proof. apply lstrip_fixed, lstrip_hd. Qed.

Lemma lstrip_snoc p (s : str) c :
  p c = false -> lstrip_by p (s ++ [c]) = lstrip_by p s ++ [c].
Proof.
  intro H. induction s as [|x s IH]; cbn [app lstrip_by]; [now rewrite H|].
  destruct (p x); [exact IH | reflexivity].
Qed.

Lemma rstrip_idem p (s : str) : rstrip_by p (rstrip_by p s) = rstrip_by p s.
Proof. unfold rstrip_by. now rewrite rev_involutive, lstrip_idem. Qed.

Lemma rstrip_keeps_head p (s : str) :
  match s with c :: _ => p c = false | [] => True end ->
  match rstrip_by p s with c :: _ => p c = false | [] => True end.
Proof.
  destruct s as [|c s]; [intros _; exact I|]. intro H.
  unfold rstrip_by. cbn [rev]. rewrite lstrip_snoc by exact H.
  rewrite rev_app_distr. exact H.
Qed.

Lemma strip_idem (s : str) : strip (strip s) = strip s.
Proof.
  unfold strip.
  rewrite (lstrip_fixed isspace (rstrip_by isspace (lstrip_by isspace s))).
  - apply rstrip_idem.
  - apply rstrip_keeps_head, lstrip_hd.
Qed.

Lemma lstrip_has_char p x (s : str) :
  has_char x s = false -> has_char x (lstrip_by p s) = false.
Proof.
  unfold has_char. induction s as [|c s IH]; cbn [lstrip_by existsb]; [reflexivity|].
  intros [H1 H2]%orb_false_elim. destruct (p c); [now apply IH|].
  cbn [existsb]. now rewrite H1, H2.
Qed.

Lemma has_char_rev x (s : str) : has_char x (rev s) = has_char x s.
Proof.
  unfold has_char. induction s as [|c s IH]; [reflexivity|].
  cbn [rev existsb]. rewrite existsb_app, IH. cbn [existsb].
  rewrite Bool.orb_false_r. apply Bool.orb_comm.
Qed.

Lemma strip_has_char x (s : str) :
  has_char x s = false -> has_char x (strip s) = false.
Proof.
  intro H. unfold strip, rstrip_by.
  rewrite has_char_rev. apply lstrip_has_char. rewrite has_char_rev.
  now apply lstrip_has_char.
Qed.

Lemma split_parts_without c (s : str) :
  forall l, In l (split c s) -> has_char c l = false.
Proof.
  unfold has_char.
  induction s as [|x s IH]; cbn [split]; intros l.
  - intros [<-|[]]. reflexivity.
  - destruct (Ascii.eqb x c) eqn:E.
    + intros [<-|H]; [reflexivity | now apply IH].
    + destruct (split c s) as [|w ws].
      * intros [<-|[]]. cbn. now rewrite Ascii.eqb_sym, E.
      * intros [<-|H].
        -- cbn [existsb]. rewrite Ascii.eqb_sym, E. apply IH. now left.
        -- apply IH. now right.
Qed.

Lemma split1_parts c x (s : str) :
  has_char x s = false ->
  has_char c (fst (split1 c s)) = false
  /\ has_char x (fst (split1 c s)) = false
  /\ has_char x (snd (split1 c s)) = false.
Proof.
  unfold has_char. induction s as [|y s IH]; cbn [split1 existsb]; [auto|].
  intros [H1 H2]%orb_false_elim.
  destruct (Ascii.eqb y c) eqn:E; cbn [fst snd existsb]; [auto|].
  destruct (split1 c s) as [a b]. cbn [fst snd existsb] in *.
  destruct (IH H2) as (I1 & I2 & I3).
  rewrite (Ascii.eqb_sym c y), E, H1. auto.
Qed.

(** X3.  The records parsed from the listing tool's stdout: a video id
    never holds '|' nor a newline and has no surrounding whitespace; a
    title never holds a newline and has no surrounding whitespace (it may
    hold '|'). *)
Theorem parsed_records_are_trimmed :
  forall (out : str) (v : video),
    In v (parse_stdout out) ->
    has_char "|" (Channels.video_id v) = false
    /\ has_char "010" (Channels.video_id v) = false
    /\ has_char "010" (title v) = false
    /\ strip (Channels.video_id v) = Channels.video_id v
    /\ strip (title v) = title v.
Proof.
  intros out v Hv. unfold parse_stdout in Hv.
  apply in_flat_map in Hv as (line & Hl & Hv).
  apply split_parts_without in Hl.
  unfold parse_line in Hv. destruct (has_char "|" line); [|contradiction].
  destruct (split1_parts "|" "010" line Hl) as (P1 & P2 & P3).
  destruct (split1 "|" line) as [a b]. cbn [fst snd] in *.
  destruct Hv as [<-|[]]. cbn [Channels.video_id title].
  repeat split; auto using strip_has_char, strip_idem.
Qed.

Lemma parsed_records_witness :
  strip (py "abc123") = py "abc123" /\ strip (py "My | Title") = py "My | Title".
Proof.
  pose proof (parsed_records_are_trimmed
                (py "  abc123 | My | Title  ")
                {| Channels.video_id := py "abc123"; title := py "My | Title";
                   Channels.url := py "https://www.youtube.com/watch?v=abc123" |}
                (or_introl eq_refl)) as (_ & _ & _ & H1 & H2).
  exact (conj H1 H2).
Defined.
(* ================================================================== *)
(** ** The entries of the ranked output *)
(* ================================================================== *)

Lemma matches_of_in order text k c :
  In (k, c) (matches_of order text) ->
  In k order /\ c = keyword_count k text /\ 0 < c.
Proof.
  unfold matches_of. intro H. apply in_flat_map in H as (k' & Hk & H).
  destruct (0 <? keyword_count k' text) eqn:E; [|contradiction].
  destruct H as [H|[]]. injection H as <- <-.
  apply Nat.ltb_lt in E. auto.
Qed.

Lemma matches_of_keys_nodup order text :
  NoDup order -> NoDup (map fst (matches_of order text)).
Proof.
  unfold matches_of. induction 1 as [|k order Hk Hnd IH]; cbn [flat_map]; [constructor|].
  destruct (0 <? keyword_count k text); cbn [app map fst]; [|exact IH].
  constructor; [|exact IH]. intro H. apply Hk. now apply (matches_of_keys order text).
Qed.

Lemma matches_of_sum order text :
  list_sum (map snd (matches_of order text))
  = list_sum (map (fun k => keyword_count k text) order).
Proof.
  unfold matches_of. induction order as [|k order IH]; [reflexivity|].
  cbn [flat_map map]. rewrite map_app, list_sum_app.
  change (list_sum (keyword_count k text :: ?l)) with (keyword_count k text + list_sum l).
  rewrite IH. destruct (0 <? keyword_count k text) eqn:E; cbn; [lia|].
  apply Nat.ltb_ge in E. lia.
Qed.

Lemma firstn_in {A : Type} n (l : list A) x : In x (firstn n l) -> In x l.
Proof. intro H. rewrite <- (firstn_skipn n l). apply in_or_app. now left. Qed.

Lemma firstn_nodup {A : Type} n (l : list A) : NoDup l -> NoDup (firstn n l).
Proof.
  revert n. induction l as [|x l IH]; intros [|n] H; cbn; try constructor.
  - inversion H; subst. intro Hx. now apply firstn_in in Hx.
  - inversion H; subst. now apply IH.
Qed.

Lemma firstn_strongly_sorted {A : Type} (R : A -> A -> Prop) n (l : list A) :
  StronglySorted R l -> StronglySorted R (firstn n l).
Proof.
  revert n. induction l as [|x l IH]; intros [|n] H; cbn; try constructor.
  - inversion H; subst. now apply IH.
  - inversion H; subst. rewrite Forall_forall in *. intros y Hy.
    now apply H3, (firstn_in n).
Qed.

Lemma firstn_sum n (l : list nat) : list_sum (firstn n l) <= list_sum l.
Proof.
  rewrite <- (firstn_skipn n l) at 2. rewrite list_sum_app. lia.
Qed.

Lemma top_keywords_facts order text :
  Permutation order FITNESS_KEYWORDS ->
  let top := firstn 10 (sorted_desc (@snd str nat)
                          (snd (calculate_fitness_score order text))) in
  length top <= 10
  /\ (forall k c, In (k, c) top ->
        In k FITNESS_KEYWORDS /\ c = keyword_count k text /\ 0 < c)
  /\ NoDup (map fst top)
  /\ StronglySorted (fun a b => snd b <= snd a) top
  /\ list_sum (map snd top) <= total_matches text.
Proof.
  intros P top. unfold top.
  rewrite calculate_matches by now apply order_nodup.
  split; [apply firstn_le_length|]. split; [|split; [|split]].
  - intros k c H. apply firstn_in in H.
    apply (Permutation_in _ (sorted_desc_perm (@snd str nat) _)) in H.
    apply matches_of_in in H as (Hk & Hc & Hp).
    split; [now apply (Permutation_in _ P) | auto].
  - rewrite <- firstn_map. apply firstn_nodup.
    apply (Permutation_NoDup
             (Permutation_sym (Permutation_map fst (sorted_desc_perm (@snd str nat) _)))).
    apply matches_of_keys_nodup. now apply order_nodup.
  - apply firstn_strongly_sorted. apply (sorted_desc_strongly (@snd str nat)).
  - rewrite <- firstn_map.
    etransitivity; [apply firstn_sum|].
    rewrite (list_sum_perm _ _ (Permutation_map snd (sorted_desc_perm (@snd str nat) _))).
    rewrite matches_of_sum, <- (score_total order text P).
    unfold calculate_fitness_score. rewrite fold_score_total. cbn. lia.
Qed.

Lemma present_in {A : Type} (o : option A) x : In x (present o) -> o = Some x.
Proof. destruct o; cbn; [intros [<-|[]]; reflexivity | contradiction]. Qed.

(** X4.  Every entry of the ranked output comes from a ".txt" file of the
    directory that could be read, carries that file's name and its score,
    which is at least the threshold, and lists at most ten keywords: each
    a keyword of the vocabulary, none twice, with its own count in the
    transcript, which is positive, in descending order of count; their
    counts add up to no more than the score. *)
Theorem ranked_entries_are_sound :
  forall (order : list str) (listing : list file) (min_score : nat) (e : entry),
    Permutation order FITNESS_KEYWORDS ->
    In e (find_fitness_videos order (Some listing) min_score) ->
    exists f t,
      In f listing /\ endswith (py ".txt") (name f) = true
      /\ load_transcript f = Some t
      /\ filename e = name f
      /\ Scorer.video_id e = t_video_id t /\ Scorer.url e = t_url t
      /\ fitness_score e = total_matches (t_text t)
      /\ min_score <= fitness_score e
      /\ length (top_keywords e) <= 10
      /\ (forall k c, In (k, c) (top_keywords e) ->
            In k FITNESS_KEYWORDS /\ c = keyword_count k (t_text t) /\ 0 < c)
      /\ NoDup (map fst (top_keywords e))
      /\ StronglySorted (fun a b => snd b <= snd a) (top_keywords e)
      /\ list_sum (map snd (top_keywords e)) <= fitness_score e.
Proof.
  intros order listing min_score e P H.
  rewrite find_fitness_videos_eq in H.
  apply (Permutation_in _ (sorted_desc_perm fitness_score _)) in H.
  apply in_flat_map in H as (f & Hf & H).
  apply present_in in H. rewrite score_file_spec in H by assumption.
  unfold glob_txt in Hf. apply filter_In in Hf as [Hf Htxt].
  destruct (load_transcript f) as [t|] eqn:L; [|discriminate].
  destruct (min_score <=? total_matches (t_text t)) eqn:M; [|discriminate].
  apply Nat.leb_le in M.
  pose proof (top_keywords_facts order (t_text t) P) as T. cbv zeta in T.
  set (top := firstn 10 _) in *. clearbody top.
  destruct T as (T1 & T2 & T3 & T4 & T5).
  injection H as <-.
  exists f, t. cbn [filename Scorer.video_id Scorer.url fitness_score top_keywords].
  repeat split; auto; try (now apply load_transcript_name);
    match goal with H : In (_, _) top |- _ => destruct (T2 _ _ H) as (? & ? & ?) end;
    assumption.
Qed.

Lemma ranked_entries_witness :
  exists e, In e (find_fitness_videos FITNESS_KEYWORDS (Some [squat_file]) 5)
            /\ length (top_keywords e) <= 10 /\ 5 <= fitness_score e.
Proof.
  destruct (find_fitness_videos FITNESS_KEYWORDS (Some [squat_file]) 5) as [|e l] eqn:E;
    [vm_compute in E; discriminate E|].
  exists e. split; [now left|].
  destruct (ranked_entries_are_sound FITNESS_KEYWORDS [squat_file] 5 e
              (Permutation_refl _))
    as (f & t & _ & _ & _ & _ & _ & _ & _ & H1 & H2 & _).
  - rewrite E. now left.
  - exact (conj H2 H1).
Defined.

(** *** Raising the threshold *)

Section SortFilter.
Context {A : Type}.
Variables (key : A -> nat) (keep : A -> bool).

Lemma insert_desc_top x l :
  Forall (fun z => key z <= key x) l -> insert_desc key x l = x :: l.
Proof.
  destruct 1 as [|y l Hy _]; cbn [insert_desc]; [reflexivity|].
  replace (key x <? key y) with false by (symmetry; apply Nat.ltb_ge; exact Hy).
  reflexivity.
Qed.

Lemma insert_desc_filter x l :
  StronglySorted (desc key) l ->
  filter keep (insert_desc key x l)
  = if keep x then insert_desc key x (filter keep l) else filter keep l.
Proof.
  induction 1 as [|y l Hs IH F]; cbn [insert_desc filter].
  - now destruct (keep x).
  - destruct (key x <? key y) eqn:E; cbn [filter]; rewrite ?IH.
    + destruct (keep y), (keep x); cbn [insert_desc]; rewrite ?E; reflexivity.
    + destruct (keep x), (keep y); cbn [insert_desc]; rewrite ?E; try reflexivity.
      symmetry. apply insert_desc_top.
      apply Nat.ltb_ge in E.
      apply Forall_forall. intros z Hz. apply filter_In in Hz as [Hz _].
      rewrite Forall_forall in F. specialize (F z Hz). unfold desc in F. lia.
Qed.

Lemma sorted_desc_filter l :
  filter keep (sorted_desc key l) = sorted_desc key (filter keep l).
Proof.
  induction l as [|x l IH]; [reflexivity|].
  cbn [sorted_desc fold_right filter]. fold (sorted_desc key l).
  rewrite insert_desc_filter by apply sorted_desc_strongly.
  rewrite IH. now destruct (keep x).
Qed.
End SortFilter.

Lemma score_file_threshold order m1 m2 f :
  m1 <= m2 ->
  present (score_file order m2 f)
  = filter (fun e => m2 <=? fitness_score e) (present (score_file order m1 f)).
Proof.
  intro Hm. unfold score_file.
  destruct (load_transcript f) as [t|]; [|reflexivity].
  destruct (calculate_fitness_score order (t_text t)) as [score matches].
  destruct (m2 <=? score) eqn:E2.
  - apply Nat.leb_le in E2.
    replace (m1 <=? score) with true by (symmetry; apply Nat.leb_le; lia).
    cbn [present filter fitness_score].
    now replace (m2 <=? score) with true by (symmetry; apply Nat.leb_le; lia).
  - destruct (m1 <=? score); cbn [present filter fitness_score]; [|reflexivity].
    now rewrite E2.
Qed.

(** X5.  Raising the threshold only removes entries: the ranked output
    for a higher threshold is the ranked output for a lower one without
    the entries whose score is below the higher threshold, the others
    keeping their order. *)
Theorem higher_threshold_filters_ranking :
  forall (order : list str) (dir : option (list file)) (m1 m2 : nat),
    m1 <= m2 ->
    find_fitness_videos order dir m2
    = filter (fun e => m2 <=? fitness_score e) (find_fitness_videos order dir m1).
Proof.
  intros order dir m1 m2 Hm. destruct dir as [listing|]; [|reflexivity].
  rewrite !find_fitness_videos_eq, sorted_desc_filter. f_equal.
  induction (glob_txt listing) as [|f l IH]; [reflexivity|].
  cbn [flat_map]. rewrite filter_app, IH. f_equal. now apply score_file_threshold.
Qed.

Lemma higher_threshold_witness :
  find_fitness_videos FITNESS_KEYWORDS (Some [squat_file; tie_file]) 6
  = filter (fun e => 6 <=? fitness_score e)
      (find_fitness_videos FITNESS_KEYWORDS (Some [squat_file; tie_file]) 5).
Proof.
  apply (higher_threshold_filters_ranking FITNESS_KEYWORDS (Some [squat_file; tie_file]) 5 6).
  lia.
Defined.
(* ================================================================== *)
(** ** The fetcher: cleanup and failures *)
(* ================================================================== *)

Lemma remove_path_other path files p :
  p <> path -> remove_path path files p = files p.
Proof.
  intro H. unfold remove_path.
  now replace (str_eqb p path) with false by (symmetry; now apply str_eqb_neq).
Qed.

Lemma remove_path_same path files : remove_path path files path = None.
Proof. unfold remove_path. now rewrite str_eqb_refl. Qed.



Lemma probe_body_raises files c f e rest :
  files c = Some f -> body f = Raised e ->
  probe (c :: rest) files = (Raised e, files).
Proof. intros Hc Hb. cbn [probe]. now rewrite Hc, Hb. Qed.

(** X7.  Failures of the fetcher.  When the wait for the subtitle tool
    elapses the result is the failure "Timeout"; when the tool cannot be
    run the result is a failure with the text of the exception; and when
    the first candidate that is not passed over has a body that does not
    load, the result is a failure with the text of that exception: the
    later candidates are not tried and no file is removed. *)
Theorem fetcher_reports_exceptions_as_failures :
  forall (X : Type) (run : subprocess X) (video_id url : str) (w : world X),
    (forall w', run (subtitle_cmd video_id url) 30 w = (Raised TimeoutExpired, w') ->
       fetch_transcript_ytdlp run video_id url w
       = (Returned (Fetcher.Failure (Text (py "Timeout"))), w'))
    /\ (forall e w', run (subtitle_cmd video_id url) 30 w = (Raised e, w') ->
          e <> TimeoutExpired ->
          fetch_transcript_ytdlp run video_id url w
          = (Returned (Fetcher.Failure (StrOf e)), w'))
    /\ (forall res w' pre c post f e,
          run (subtitle_cmd video_id url) 30 w = (Returned res, w') ->
          subtitle_files video_id = pre ++ c :: post ->
          forallb (passed_over (files w')) pre = true ->
          files w' c = Some f -> body f = Raised e -> e <> TimeoutExpired ->
          fst (fetch_transcript_ytdlp run video_id url w)
          = Returned (Fetcher.Failure (StrOf e))
          /\ files (snd (fetch_transcript_ytdlp run video_id url w)) = files w').
Proof.
  intros X run video_id url w. split; [|split].
  - intros w' H. unfold fetch_transcript_ytdlp, fetch_transcript_ytdlp_try. now rewrite H.
  - intros e w' H Ne. unfold fetch_transcript_ytdlp, fetch_transcript_ytdlp_try.
    rewrite H. destruct e; try reflexivity. contradiction.
  - intros res w' pre c post f e H Hfiles Hpre Hc Hb Ne.
    unfold fetch_transcript_ytdlp, fetch_transcript_ytdlp_try. rewrite H, Hfiles.
    rewrite probe_passed_over by assumption.
    rewrite (probe_body_raises (files w') c f e post Hc Hb). cbn.
    split; [|reflexivity]. destruct e; try reflexivity. contradiction.
Qed.

Lemma fetcher_reports_witness :
  fetch_transcript_ytdlp slow_tool (py "v1") (py "https://www.youtube.com/watch?v=v1")
    two_candidates
  = (Returned (Fetcher.Failure (Text (py "Timeout"))), two_candidates).
Proof.
  exact (proj1 (fetcher_reports_exceptions_as_failures unit slow_tool (py "v1")
                  (py "https://www.youtube.com/watch?v=v1") two_candidates)
           two_candidates eq_refl).
Defined.

(* ================================================================== *)
(** ** The batch runner and the external tool *)
(* ================================================================== *)

Section Recording.
Context {X : Type}.
Variable inner : subprocess X.
Variable output_dir : str.
Variable delay : nat.

Lemma fetch_recording id url (w : world (list (list str) * X)) :
  fst (ext (snd (fetch_transcript_ytdlp (recording inner) id url w)))
  = fst (ext w) ++ [subtitle_cmd id url].
Proof.
  unfold fetch_transcript_ytdlp, fetch_transcript_ytdlp_try, recording.
  destruct (inner (subtitle_cmd id url) 30 _) as [[res|e] w']; [|reflexivity].
  cbn [ext files]. destruct (probe _ _). reflexivity.
Qed.

Lemma process_item_log total i url st :
  log_of (snd (process_item (recording inner) output_dir delay total i url st))
  = log_of st ++ (if resolvable url then [subtitle_cmd (id_of url) url] else []).
Proof.
  unfold process_item, resolvable, id_of, log_of.
  destruct (falsy (extract_video_id url)); cbn [negb].
  - cbn. now rewrite app_nil_r.
  - set (id := match extract_video_id url with Some v => v | None => [] end).
    pose proof (fetch_recording id url
                  (st_world (emit (EvPrint (MsgFetching i total id)) st))) as H.
    destruct (fetch_transcript_ytdlp (recording inner) id url _) as [[r|e] w'];
      cbn [snd] in H; [|exact H].
    destruct r; destruct (i <? total); exact H.
Qed.

Lemma loop_log urls : forall total i st,
  log_of (snd (loop (recording inner) output_dir delay total i urls st))
  = log_of st ++ map (fun u => subtitle_cmd (id_of u) u) (filter resolvable urls).
Proof.
  induction urls as [|url rest IH]; intros total i st; cbn [loop filter].
  - cbn. now rewrite app_nil_r.
  - pose proof (process_item_log total i url st) as H.
    destruct (process_item_counts (recording inner) output_dir delay total i url st)
      as (st1 & E & _).
    rewrite E in H |- *. cbn [snd] in H.
    rewrite IH, H. destruct (resolvable url); cbn [map app];
      now rewrite <- app_assoc.
Qed.

Lemma finish_world total (st : state (list (list str) * X)) :
  st_world (snd (finish output_dir total st)) = st_world st.
Proof.
  unfold finish. destruct total; destruct (failed st) eqn:F; cbn; rewrite ?F; reflexivity.
Qed.
End Recording.

(* ================================================================== *)
(** ** Channel names and the batch over channels *)
(* ================================================================== *)

Import ChannelBatch.

Lemma findall_matches r s w :
  In w (findall r s) -> exists prev' s', match_here r prev' s' = Some w.
Proof.
  unfold findall, finditer. rewrite in_map_iff. intros ([p w'] & E & H).
  cbn in E. subst w'. now apply (finditer_from_matches r s None 0 0 p w).
Qed.

Lemma channel_match_shape content w :
  In w (findall channel_pattern content) ->
  exists h, w = channel_prefix ++ h /\ h <> [] /\ forallb handle_char h = true.
Proof.
  intro H. apply findall_matches in H as (prev & s & H).
  unfold channel_pattern in H. rewrite match_here_lit_class in H.
  destruct (startswith _ s); [|discriminate].
  destruct (take_while handle_char _) as [|c t] eqn:T; [discriminate|].
  injection H as <-. exists (c :: t). split; [reflexivity|]. split; [discriminate|].
  rewrite <- T. apply take_while_all.
Qed.

Lemma rstrip_slash_handle h :
  h <> [] -> forallb handle_char h = true ->
  rstrip_char "/" (channel_prefix ++ h) = channel_prefix ++ h.
Proof.
  intros N F. unfold rstrip_char, rstrip_by.
  rewrite <- (rev_involutive (channel_prefix ++ h)) at 2. f_equal.
  rewrite rev_app_distr.
  destruct (rev h) as [|c t] eqn:R.
  - apply (f_equal (@rev ascii)) in R. rewrite rev_involutive in R. contradiction.
  - cbn [app lstrip_by].
    assert (Hc : handle_char c = true).
    { rewrite forallb_forall in F. apply F, in_rev. rewrite R. now left. }
    destruct (Ascii.eqb "/" c) eqn:E; [|reflexivity].
    apply Ascii.eqb_eq in E. subst c. discriminate Hc.
Qed.

Lemma search_at_sign h :
  h <> [] -> forallb handle_char h = true ->
  search (Cat (lit (py "@")) (ClsPlus handle_char)) (channel_prefix ++ h)
  = Some (py "@" ++ h).
Proof.
  intros N F.
  assert (TW : take_while handle_char h = h).
  { rewrite <- (app_nil_r h) at 1. apply take_while_app; auto. }
  unfold search, findall, finditer, channel_prefix.
  change (py "https://www.youtube.com/@" ++ h)
    with ("h" :: "t" :: "t" :: "p" :: "s" :: ":" :: "/" :: "/" :: "w" :: "w" :: "w" :: "."
          :: "y" :: "o" :: "u" :: "t" :: "u" :: "b" :: "e" :: "." :: "c" :: "o" :: "m"
          :: "/" :: "@" :: h)%char.
  do 24 search_step.
  rewrite search_head_step, match_here_lit_class.
  change (startswith (py "@") ("@"%char :: h)) with true. cbv iota.
  change (skipn (length (py "@")) ("@"%char :: h)) with h.
  rewrite TW. destruct h; [contradiction | reflexivity].
Qed.

Lemma channel_name_of_handle h :
  h <> [] -> forallb handle_char h = true ->
  get_channel_name (channel_prefix ++ h) = h.
Proof.
  intros N F. unfold get_channel_name, search_group.
  now rewrite (search_at_sign h N F).
Qed.

Lemma extracted_channel_shape content u :
  In u (extract_channel_urls content) ->
  exists h, h <> [] /\ forallb handle_char h = true
            /\ u = channel_prefix ++ h /\ get_channel_name u = h.
Proof.
  intro H. unfold extract_channel_urls, findall in H.
  destruct (dedup_first_occurrence (rstrip_char "/")
              (finditer channel_pattern content) (finditer_sorted _ _)) as (_ & M & _).
  apply M in H. apply in_map_iff in H as ([p w] & E & H). cbn [snd] in E.
  assert (Hw : In w (findall channel_pattern content)).
  { unfold findall. apply in_map_iff. now exists (p, w). }
  apply channel_match_shape in Hw as (h & -> & N & F).
  rewrite rstrip_slash_handle in E by assumption. subst u.
  exists h. auto using channel_name_of_handle.
Qed.

Lemma channel_names_nodup content :
  NoDup (map get_channel_name (extract_channel_urls content)).
Proof.
  assert (N : NoDup (extract_channel_urls content)).
  { unfold extract_channel_urls, findall.
    apply (dedup_first_occurrence (rstrip_char "/")
             (finditer channel_pattern content) (finditer_sorted _ _)). }
  assert (S : forall u, In u (extract_channel_urls content) ->
                        u = channel_prefix ++ get_channel_name u).
  { intros u Hu. apply extracted_channel_shape in Hu as (h & _ & _ & E & ->). exact E. }
  induction (extract_channel_urls content) as [|u l IH]; cbn [map]; [constructor|].
  inversion N as [|? ? Hu Hl]; subst. constructor.
  - intro H. apply in_map_iff in H as (v & E & Hv). apply Hu.
    rewrite (S u (or_introl eq_refl)), <- E, <- (S v (or_intror Hv)). exact Hv.
  - apply IH; [exact Hl|]. intros v Hv. apply S. now right.
Qed.

(** X9.  Every channel URL that [extract_channel_urls] returns is the
    prefix https://www.youtube.com/@ followed by a non-empty handle of
    word characters, '-' and '.'; [get_channel_name] of it is that
    handle; so different extracted channels have different names, and
    neither their statistics nor their per-channel files collide. *)
Theorem extracted_channels_have_distinct_names :
  forall content : str,
    (forall u, In u (extract_channel_urls content) ->
       get_channel_name u <> []
       /\ forallb handle_char (get_channel_name u) = true
       /\ u = py "https://www.youtube.com/@" ++ get_channel_name u)
    /\ NoDup (map get_channel_name (extract_channel_urls content)).
Proof.
  intro content. split; [|apply channel_names_nodup].
  intros u Hu. apply extracted_channel_shape in Hu as (h & N & F & E & ->). auto.
Qed.

Lemma dict_put_fresh {V : Type} k (v : V) d :
  ~ In k (map fst d) -> dict_put k v d = d ++ [(k, v)].
Proof.
  induction d as [|[k' v'] d IH]; cbn [dict_put map fst In app]; intro H; [reflexivity|].
  destruct (str_eqb k' k) eqn:E.
  - apply str_eqb_eq in E. tauto.
  - rewrite IH by tauto. reflexivity.
Qed.

Lemma enumerator_success_parsed {X : Type} (run : subprocess X) channel_url max_videos w videos :
  fst (fetch_channel_videos run channel_url max_videos w) = Returned (Success videos) ->
  exists out, videos = parse_stdout out.
Proof.
  unfold fetch_channel_videos, fetch_channel_videos_try.
  destruct (run (listing_cmd channel_url max_videos) 120 w) as [[res|e] w'].
  - destruct (negb _); cbn; intro H; [discriminate|]. injection H as <-. eauto.
  - destruct e; cbn; discriminate.
Qed.

Section BatchFacts.
Context {X : Type}.
Variable run : subprocess X.
Variable output_dir : str.
Variable max_videos : option nat.

Lemma process_channel_step total i u (st : cstate X) :
  ~ In (get_channel_name u) (map fst (channel_stats st)) ->
  exists st' tagged e,
    process_channel run output_dir max_videos total i u st = (Returned tt, st')
    /\ all_videos st' = all_videos st ++ tagged
    /\ channel_stats st' = channel_stats st ++ [(get_channel_name u, e)]
    /\ ce_channel_url e = u /\ ce_video_count e = length tagged
    /\ (forall v, In v tagged ->
          tv_url v = watch_url (tv_video_id v)
          /\ tv_channel_url v = u /\ tv_channel_name v = get_channel_name u).
Proof.
  intro Hfresh. unfold process_channel.
  set (st1 := cemit _ st).
  destruct (enumerator_returns run u max_videos (c_world st1)) as [r Hr].
  pose proof (enumerator_success_parsed run u max_videos (c_world st1)) as Hp.
  destruct (fetch_channel_videos run u max_videos (c_world st1)) as [o w'].
  cbn [fst] in Hr, Hp. subst o.
  destruct r as [videos|error].
  - eexists. exists (map (tag (get_channel_name u) u) videos). eexists.
    split; [reflexivity|].
    cbn [all_videos channel_stats cemit]. split; [reflexivity|].
    split; [now apply dict_put_fresh|].
    cbn [ce_channel_url ce_video_count]. split; [reflexivity|].
    split; [now rewrite length_map|].
    intros v Hv. apply in_map_iff in Hv as (v0 & <- & Hv0). cbn.
    destruct (Hp videos eq_refl) as [out ->].
    unfold parse_stdout in Hv0. apply in_flat_map in Hv0 as (line & _ & Hv0).
    now rewrite (parse_line_url line v0 Hv0).
  - eexists. exists []. eexists. split; [reflexivity|].
    cbn [all_videos channel_stats cemit].
    rewrite app_nil_r. split; [reflexivity|].
    split; [now apply dict_put_fresh|]. cbn. repeat split; contradiction.
Qed.

Lemma channel_loop_facts channels : forall total i (st : cstate X),
  NoDup (map get_channel_name channels) ->
  (forall u, In u channels -> ~ In (get_channel_name u) (map fst (channel_stats st))) ->
  exists st' added,
    channel_loop run output_dir max_videos total i channels st = (Returned tt, st')
    /\ all_videos st' = all_videos st ++ added
    /\ map fst (channel_stats st')
       = map fst (channel_stats st) ++ map get_channel_name channels
    /\ map (fun kv => ce_channel_url (snd kv)) (channel_stats st')
       = map (fun kv => ce_channel_url (snd kv)) (channel_stats st) ++ channels
    /\ stats_total (channel_stats st') = stats_total (channel_stats st) + length added
    /\ (forall v, In v added ->
          tv_url v = watch_url (tv_video_id v)
          /\ In (tv_channel_url v) channels
          /\ tv_channel_name v = get_channel_name (tv_channel_url v)).
Proof.
  induction channels as [|u rest IH]; intros total i st Hnd Hfresh.
  - exists st, []. cbn. rewrite !app_nil_r. repeat split; auto; contradiction.
  - cbn [channel_loop map] in *. inversion Hnd as [|? ? Hu Hrest]; subst.
    destruct (process_channel_step total i u st) as (st1 & tagged & e & -> & A & C & E1 & E2 & V);
      [apply Hfresh; now left|].
    destruct (IH total (S i) st1 Hrest) as (st2 & added & -> & A2 & K2 & U2 & T2 & V2).
    { intros v Hv. rewrite C, map_app, in_app_iff. cbn.
      intros [H|[H|[]]]; [apply (Hfresh v); [now right | exact H]|].
      apply Hu. rewrite H. now apply in_map. }
    exists st2, (tagged ++ added). split; [reflexivity|].
    rewrite A2, K2, U2, T2, A, C. unfold stats_total.
    rewrite !map_app, list_sum_app, length_app, <- !app_assoc. cbn. rewrite E1, E2.
    split; [reflexivity|]. split; [reflexivity|]. split; [reflexivity|].
    split; [lia|].
    intros v H. apply in_app_iff in H as [H|H].
    + destruct (V v H) as (H1 & H2 & H3). rewrite H2.
      split; [exact H1|]. split; [now left | exact H3].
    + destruct (V2 v H) as (H1 & H2 & H3).
      split; [exact H1|]. split; [now right | exact H3].
Qed.
End BatchFacts.

(* ================================================================== *)
(** ** From the fetcher's files to the scorer *)
(* ================================================================== *)

Lemma transcript_file_parts id url text :
  transcript_file id url (py "en") (py "yt-dlp") text
  = header id url ++ separator ++ ["010"; "010"]%char ++ text.
Proof.
  unfold transcript_file, header, separator.
  repeat rewrite <- app_assoc. reflexivity.
Qed.

Lemma split_app_sep c (a b : str) :
  has_char c a = false -> split c (a ++ c :: b) = a :: split c b.
Proof.
  unfold has_char. induction a as [|x a IH]; cbn [app split existsb].
  - intros _. now rewrite Ascii.eqb_refl.
  - intros [Hx Ha]%orb_false_elim. rewrite Ascii.eqb_sym, Hx, IH by exact Ha. reflexivity.
Qed.

Lemma header_step_other acc line :
  header_like line = false -> header_step acc line = acc.
Proof.
  unfold header_like, header_step. destruct acc as [v u].
  intros [-> ->]%orb_false_elim. reflexivity.
Qed.

Lemma fold_header_other lines : forall acc,
  existsb header_like lines = false -> fold_left header_step lines acc = acc.
Proof.
  induction lines as [|l lines IH]; intros acc; cbn [existsb fold_left]; [reflexivity|].
  intros [H1 H2]%orb_false_elim. rewrite header_step_other by exact H1. now apply IH.
Qed.

Lemma startswith_through sub : forall u x b,
  has_char x sub = false ->
  startswith sub (u ++ x :: b) = true -> startswith sub (u ++ [x]) = true.
Proof.
  unfold has_char.
  induction sub as [|a sub IH]; intros u x b Hx; [reflexivity|].
  cbn [existsb] in Hx. apply orb_false_elim in Hx as [Ha Hs].
  destruct u as [|y u]; cbn [app startswith].
  - rewrite Ascii.eqb_sym, Ha. discriminate.
  - intros [-> H]%andb_prop. cbn [andb]. now apply (IH u x b).
Qed.

Lemma contains_tail sub c s : contains sub (c :: s) = false ->
  startswith sub (c :: s) = false /\ contains sub s = false.
Proof.
  unfold contains. cbn [find].
  destruct (startswith sub (c :: s)); [discriminate|].
  destruct (find sub s); [discriminate | auto].
Qed.

(** Nothing is found before the end of a text that does not hold [sub]
    and ends with a character foreign to [sub]. *)
Lemma find_after sub : forall a x b,
  contains sub (a ++ [x]) = false -> has_char x sub = false ->
  find sub ((a ++ [x]) ++ b) = option_map (fun i => length (a ++ [x]) + i) (find sub b).
Proof.
  induction a as [|c a IH]; intros x b Hc Hx.
  - cbn [app length Nat.add].
    apply contains_tail in Hc as [Hs _].
    change ([x] ++ b) with (x :: b). cbn [find].
    destruct (startswith sub (x :: b)) eqn:E.
    + apply (startswith_through sub [] x b Hx) in E. cbn [app] in E. congruence.
    + now destruct (find sub b).
  - cbn [app] in Hc. apply contains_tail in Hc as [Hs Hc].
    cbn [app find].
    destruct (startswith sub (c :: (a ++ [x]) ++ b)) eqn:E.
    + rewrite <- app_assoc in E.
      apply (startswith_through sub (c :: a) x b Hx) in E. cbn [app] in E. congruence.
    + rewrite IH by assumption. cbn [length]. now destruct (find sub b).
Qed.

Lemma header_ends id url :
  header id url
  = (py "Video ID: " ++ id ++ ["010"%char] ++ py "URL: " ++ url ++ ["010"%char]
     ++ py "Language: en" ++ ["010"%char] ++ py "Method: yt-dlp" ++ ["010"%char])
    ++ ["010"%char].
Proof. unfold header. repeat rewrite <- app_assoc. reflexivity. Qed.

Lemma find_separator id url rest :
  contains separator (header id url) = false ->
  find separator (header id url ++ separator ++ rest) = Some (length (header id url)).
Proof.
  intro H. rewrite header_ends in *.
  rewrite find_after by (exact H || reflexivity).
  replace (find separator (separator ++ rest)) with (Some 0).
  - cbn [option_map]. now rewrite Nat.add_0_r.
  - unfold find. destruct (separator ++ rest) eqn:E;
      rewrite <- E, startswith_app; reflexivity.
Qed.

Lemma header_lines id url rest :
  has_char "010" id = false -> has_char "010" url = false ->
  split "010" (header id url ++ separator ++ ["010"; "010"]%char ++ rest)
  = (py "Video ID: " ++ id) :: (py "URL: " ++ url) :: py "Language: en"
    :: py "Method: yt-dlp" :: [] :: separator :: [] :: split "010" rest.
Proof.
  intros Hid Hurl. unfold header.
  repeat rewrite <- app_assoc.
  change (py "Video ID: " ++ id ++ ["010"%char] ++ ?r)
    with ((py "Video ID: " ++ id) ++ "010"%char :: r).
  rewrite split_app_sep by (rewrite has_char_app, Hid; reflexivity).
  change (py "URL: " ++ url ++ ["010"%char] ++ ?r)
    with ((py "URL: " ++ url) ++ "010"%char :: r).
  rewrite split_app_sep by (rewrite has_char_app, Hurl; reflexivity).
  change (py "Language: en" ++ ["010"%char] ++ ?r) with (py "Language: en" ++ "010"%char :: r).
  rewrite split_app_sep by reflexivity.
  change (py "Method: yt-dlp" ++ ["010"%char] ++ ?r)
    with (py "Method: yt-dlp" ++ "010"%char :: r).
  rewrite split_app_sep by reflexivity.
  change (["010"%char] ++ ?r) with ([] ++ "010"%char :: r).
  rewrite split_app_sep by reflexivity.
  change (separator ++ ["010"; "010"]%char ++ rest)
    with (separator ++ "010"%char :: ([] ++ "010"%char :: rest)).
  rewrite split_app_sep by reflexivity.
  rewrite split_app_sep by reflexivity.
  reflexivity.
Qed.

Lemma header_step_id v u id :
  header_step (v, u) (py "Video ID: " ++ id)
  = (strip (replace (py "Video ID:") [] id), u).
Proof. reflexivity. Qed.

Lemma header_step_url v u url :
  header_step (v, u) (py "URL: " ++ url)
  = (v, strip (replace (py "URL:") [] url)).
Proof. reflexivity. Qed.

Lemma replace_absent old new s :
  contains old s = false -> replace old new s = s.
Proof.
  unfold replace. induction s as [|c s IH]; [reflexivity|].
  intros [Hs Hc]%contains_tail. cbn [replace_from]. rewrite Hs. f_equal. now apply IH.
Qed.



Lemma written_file_text name id url text :
  has_char "010" id = false -> has_char "010" url = false ->
  contains separator (header id url) = false ->
  exists t, load_transcript (written_file name id url text) = Some t
            /\ t_text t = lower (separator ++ ["010"; "010"]%char ++ text).
Proof.
  intros Hid Hurl Hsep.
  unfold load_transcript, written_file. cbn [data Scorer.name].
  rewrite transcript_file_parts, find_separator by assumption.
  rewrite skipn_app, skipn_all, Nat.sub_diag. cbn [app skipn].
  match goal with
  | |- context [fold_left header_step ?l ?a] => destruct (fold_left header_step l a)
  end.
  eexists. split; reflexivity.
Qed.

(** *** Characters that are no word characters add no match *)

Lemma whole_word_here_prev kw p1 p2 s :
  word_opt p1 = word_opt p2 -> whole_word_here kw p1 s = whole_word_here kw p2 s.
Proof. unfold whole_word_here. now intros ->. Qed.

Lemma occs_from_length_pos kw s : forall prev pos1 pos2,
  length (occs_from kw prev pos1 s) = length (occs_from kw prev pos2 s).
Proof.
  induction s as [|d s IH]; intros prev pos1 pos2; [reflexivity|].
  cbn [occs_from]. rewrite !length_app, (IH (Some d) (S pos1) (S pos2)).
  now destruct (whole_word_here kw prev (d :: s)).
Qed.

Lemma occs_from_length kw s p1 p2 pos1 pos2 :
  word_opt p1 = word_opt p2 ->
  length (occs_from kw p1 pos1 s) = length (occs_from kw p2 pos2 s).
Proof.
  intro H. destruct s as [|c s]; [reflexivity|].
  cbn [occs_from]. rewrite !length_app, (whole_word_here_prev kw p1 p2 _ H).
  rewrite (occs_from_length_pos kw s (Some c) (S pos1) (S pos2)).
  now destruct (whole_word_here kw p2 (c :: s)).
Qed.

Lemma whole_word_here_nonword kw prev c s :
  word_ended kw = true -> is_word c = false -> whole_word_here kw prev (c :: s) = false.
Proof.
  unfold word_ended, whole_word_here. intros [Hk _]%andb_prop Hc.
  destruct (same_ignoring_case (firstn (length kw) (c :: s)) kw) eqn:E;
    [|now rewrite andb_false_r].
  exfalso. apply str_eqb_eq, same_case_hd in E.
  destruct kw as [|k kw]; [discriminate|].
  cbn in E, Hk. congruence.
Qed.

Lemma occs_from_padding kw text : forall pad prev pos,
  word_ended kw = true ->
  forallb (fun c => negb (is_word c)) pad = true -> word_opt prev = false ->
  length (occs_from kw prev pos (pad ++ text)) = length (occs_from kw None 0 text).
Proof.
  induction pad as [|c pad IH]; intros prev pos Hk Hpad Hprev.
  - now apply occs_from_length.
  - cbn [forallb] in Hpad. apply andb_prop in Hpad as [Hc Hpad].
    apply negb_true_iff in Hc.
    cbn [app occs_from]. rewrite whole_word_here_nonword by assumption.
    cbn [app]. now apply IH.
Qed.

Lemma occurrences_padding kw pad text :
  word_ended kw = true -> forallb (fun c => negb (is_word c)) pad = true ->
  length (occurrences kw (pad ++ text)) = length (occurrences kw text).
Proof.
  intros Hk Hpad.
  unfold occurrences.
  pose proof (occs_from_index kw (pad ++ text) []) as H1.
  pose proof (occs_from_index kw text []) as H2.
  cbn [app length rev hd_error] in H1, H2. rewrite <- H1, <- H2.
  now apply occs_from_padding.
Qed.

Lemma lower_char_idem c : lower_char (lower_char c) = lower_char c.
Proof. destruct c as [[] [] [] [] [] [] [] []]; reflexivity. Qed.

Lemma lower_idem s : lower (lower s) = lower s.
Proof. unfold lower. rewrite map_map. apply map_ext, lower_char_idem. Qed.

Lemma total_matches_written text :
  total_matches (lower (separator ++ ["010"; "010"]%char ++ text)) = total_matches text.
Proof.
  unfold total_matches. f_equal. apply map_ext_in. intros k Hk.
  destruct (vocabulary_keyword k Hk) as [Hw _].
  rewrite (occurrences_same_case k _ _ (lower_idem _)).
  rewrite app_assoc. now apply occurrences_padding.
Qed.

(** X12.  The score of a transcript file written by the batch runner (id
    and URL without newline, header without a run of eighty '=') is the
    number of whole-word keyword matches in the transcript text alone:
    the header, with the id and the URL, and the separator add nothing.
    So the file yields an entry exactly when that number reaches the
    threshold. *)
Theorem written_file_scores_its_text :
  forall (order : list str) (min_score : nat) (name id url text : str),
    Permutation order FITNESS_KEYWORDS ->
    has_char "010" id = false ->
    has_char "010" url = false ->
    contains separator (header id url) = false ->
    (forall e, score_file order min_score (written_file name id url text) = Some e ->
               Scorer.fitness_score e = total_matches text)
    /\ (score_file order min_score (written_file name id url text) = None
        <-> total_matches text < min_score).
Proof.
  intros order min_score name id url text P Hid Hurl Hsep.
  destruct (written_file_text name id url text Hid Hurl Hsep) as (t & L & T).
  rewrite score_file_spec, L, T, total_matches_written by assumption.
  destruct (min_score <=? total_matches text) eqn:E.
  - apply Nat.leb_le in E. split.
    + intros e H. now injection H as <-.
    + split; [discriminate | lia].
  - apply Nat.leb_gt in E. split; [discriminate | tauto].
Qed.

Lemma written_file_scores_witness :
  score_file FITNESS_KEYWORDS 3
    (written_file (py "abs.txt") (py "abs")
       (py "https://www.youtube.com/watch?v=abs") (py "Squat and squat")) = None
  <-> total_matches (py "Squat and squat") < 3.
Proof.
  exact (proj2 (written_file_scores_its_text FITNESS_KEYWORDS 3 (py "abs.txt") (py "abs")
                  (py "https://www.youtube.com/watch?v=abs") (py "Squat and squat")
                  (Permutation_refl _) eq_refl eq_refl eq_refl)).
Defined.
(* ================================================================== *)
(** ** What a transcript batch leaves behind *)
(* ================================================================== *)

Lemma probe_tags candidates : forall files text l m files',
  probe candidates files = (Returned (Fetcher.Success text l m), files') ->
  l = py "en" /\ m = py "yt-dlp".
Proof.
  induction candidates as [|c rest IH]; intros files text l m files'; cbn [probe];
    [discriminate|].
  destruct (files c) as [f|]; [|apply IH].
  destruct (body f) as [d|]; [|discriminate].
  destruct (py_in (py "events") d) as [[]|]; [|apply IH|discriminate].
  destruct (full_text d); [|discriminate].
  destruct (removable f); [|discriminate].
  intro H. now injection H as _ <- <- _.
Qed.

Lemma fetch_tags {X : Type} (run : subprocess X) id url w text l m w' :
  fetch_transcript_ytdlp run id url w = (Returned (Fetcher.Success text l m), w') ->
  l = py "en" /\ m = py "yt-dlp".
Proof.
  unfold fetch_transcript_ytdlp, fetch_transcript_ytdlp_try.
  destruct (run (subtitle_cmd id url) 30 w) as [[res|e] w1].
  - destruct (probe (subtitle_files id) (files w1)) as [o files'] eqn:P.
    destruct o as [[t l' m'|]|e]; cbn [handlers]; try (destruct e); try discriminate.
    intro H. injection H as <- <- <- _. now apply probe_tags in P.
  - destruct e; discriminate.
Qed.

Lemma written_app a b : written (a ++ b) = written a ++ written b.
Proof. apply flat_map_app. Qed.

Lemma dumped_app a b : dumped (a ++ b) = dumped a ++ dumped b.
Proof. apply flat_map_app. Qed.

Lemma subseq_refl {A : Type} (l : list A) : subseq l l.
Proof. induction l; [apply subseq_nil | now apply subseq_keep]. Qed.

Lemma subseq_nil_l {A : Type} (l : list A) : subseq [] l.
Proof. induction l; [apply subseq_nil | now apply subseq_skip]. Qed.

Lemma subseq_length {A : Type} (a b : list A) : subseq a b -> length a <= length b.
Proof. induction 1; cbn; lia. Qed.

Section BatchRecords.
Context {X : Type}.
Variable run : subprocess X.
Variable output_dir : str.
Variable delay : nat.

(** What one item adds to the records of the run. *)
Lemma process_item_records total i url (st : state X) :
  exists st' fs ws,
    process_item run output_dir delay total i url st = (Returned tt, st')
    /\ failed st' = failed st ++ fs
    /\ written (trace st') = written (trace st) ++ ws
    /\ dumped (trace st') = dumped (trace st)
    /\ success_count st' = success_count st + length ws
    /\ length fs + length ws = 1
    /\ Forall (fun r => f_url r = url /\ failure_ok r) fs
    /\ Forall (write_ok output_dir [url]) ws.
Proof.
  unfold process_item.
  destruct (extract_video_id url) as [id|] eqn:E.
  - pose proof (extract_video_id_shape url id E) as [N _].
    destruct id as [|c id']; [contradiction|]. cbn [falsy].
    destruct (fetch_returns run (c :: id') url
                (st_world (emit (EvPrint (MsgFetching i total (c :: id'))) st)))
      as [r Hr].
    destruct (fetch_transcript_ytdlp run (c :: id') url _) as [o w'] eqn:F.
    cbn [fst] in Hr. subst o.
    destruct r as [text l m|err].
    + destruct (fetch_tags run _ url _ text l m w' F) as [-> ->].
      eexists. exists [], [(output_dir ++ py "/" ++ (c :: id') ++ py ".txt",
                            transcript_file (c :: id') url (py "en") (py "yt-dlp") text)].
      split; [reflexivity|].
      destruct (i <? total);
        cbn [failed trace success_count emit count_success set_world];
        rewrite ?written_app, ?dumped_app; cbn [written dumped flat_map app length];
        rewrite ?app_nil_r.
      all: repeat split; auto; try lia; try apply Forall_nil.
      all: apply Forall_cons; [|apply Forall_nil].
      all: exists url, (c :: id'), text; cbn [fst snd In]; auto.
    + eexists. exists [{| f_url := url; f_video_id := Some (c :: id'); f_error := err |}], [].
      split; [reflexivity|].
      destruct (i <? total);
        cbn [failed trace success_count emit failed_append set_world];
        rewrite ?written_app, ?dumped_app; cbn [written dumped flat_map app length];
        rewrite ?app_nil_r.
      all: repeat split; auto; try lia; try apply Forall_nil.
      all: apply Forall_cons; [|apply Forall_nil].
      all: split; [reflexivity | exact E].
  - cbn [falsy].
    eexists. exists [{| f_url := url; f_video_id := None;
                        f_error := Text (py "Invalid URL") |}], [].
    split; [reflexivity|].
    cbn [failed trace success_count emit failed_append].
    rewrite ?written_app, ?dumped_app; cbn [written dumped flat_map app length];
      rewrite ?app_nil_r.
    repeat split; auto; try apply Forall_nil.
    apply Forall_cons; [|apply Forall_nil].
    split; [reflexivity|]. unfold failure_ok. cbn [f_video_id f_error f_url]. auto.
Qed.

Lemma write_ok_incl urls urls' pc :
  incl urls urls' -> write_ok output_dir urls pc -> write_ok output_dir urls' pc.
Proof.
  intros Hi (u & id & text & Hu & H). exists u, id, text. split; [now apply Hi | exact H].
Qed.

Lemma loop_records urls : forall total i (st : state X),
  exists st' fs ws,
    loop run output_dir delay total i urls st = (Returned tt, st')
    /\ failed st' = failed st ++ fs
    /\ written (trace st') = written (trace st) ++ ws
    /\ dumped (trace st') = dumped (trace st)
    /\ success_count st' = success_count st + length ws
    /\ length fs + length ws = length urls
    /\ subseq (map f_url fs) urls
    /\ Forall failure_ok fs
    /\ Forall (write_ok output_dir urls) ws.
Proof.
  induction urls as [|url rest IH]; intros total i st.
  - exists st, [], []. cbn. rewrite !app_nil_r. repeat split; auto; try apply subseq_nil; constructor.
  - cbn [loop].
    destruct (process_item_records total i url st)
      as (st1 & fs1 & ws1 & -> & F1 & W1 & D1 & C1 & L1 & A1 & B1).
    destruct (IH total (S i) st1)
      as (st2 & fs2 & ws2 & -> & F2 & W2 & D2 & C2 & L2 & S2 & A2 & B2).
    exists st2, (fs1 ++ fs2), (ws1 ++ ws2).
    split; [reflexivity|].
    rewrite F2, F1, W2, W1, D2, D1, C2, C1, !length_app, <- !app_assoc.
    repeat split; auto; try (cbn [length]; lia).
    + rewrite map_app.
      destruct fs1 as [|r [|r' fs1']].
      * cbn [map app]. now apply subseq_skip.
      * inversion A1 as [|r0 l0 Hh Ht]; subst. destruct Hh as [Hr _].
        cbn [map app]. rewrite Hr. now apply subseq_keep.
      * cbn [length] in L1. lia.
    + apply Forall_app. split; [|exact A2].
      eapply Forall_impl; [|exact A1]. now intros r [_ H].
    + apply Forall_app. split.
      * eapply Forall_impl; [|exact B1]. intro pc.
        apply write_ok_incl. intros u [<-|[]]. now left.
      * eapply Forall_impl; [|exact B2]. intro pc.
        apply write_ok_incl. intros u Hu. now right.
Qed.

Lemma finish_records total (st : state X) :
  let st' := snd (finish output_dir total st) in
  failed st' = failed st
  /\ success_count st' = success_count st
  /\ written (trace st') = written (trace st)
  /\ dumped (trace st')
     = dumped (trace st)
       ++ match failed st with
          | [] => []
          | _ :: _ => [(output_dir ++ py "/failed.json", failed st)]
          end.
Proof.
  unfold finish.
  destruct total; destruct (failed st) eqn:F; cbn [snd failed success_count trace emit];
    rewrite ?F; cbn [failed success_count trace emit];
    rewrite ?written_app, ?dumped_app; cbn [written dumped flat_map app];
    rewrite ?app_nil_r; auto.
Qed.
End BatchRecords.

